(** * starttls-backend, package checker: result model, aggregated totals
      and the CSV batch pipeline

    A shallow embedding of the package's result model (the [Status]
    order, [Result] and its methods) and of [checker/totals.go] (the
    aggregated scan statistics and the worker-pool pipeline [CheckCSV]),
    followed by the properties proved about them. *)

From Stdlib Require Import ZArith Lia PrimFloat Uint63.
From stdpp Require Import base option list gmap strings sorting.

Local Open Scope Z_scope.

(* ===================================================================== *)
(** * Go's [int]                                                          *)
(* ===================================================================== *)

(** Go's [int] on the 64-bit targets the service is built for: a signed
    two's-complement word. Values are kept as [Z]; every arithmetic
    operation of the source goes through [wrap]. *)
Module GoInt.

Definition bits : Z := 64.
Definition modulus : Z := 2 ^ bits.
Definition max_int : Z := 2 ^ (bits - 1) - 1.
Definition min_int : Z := - 2 ^ (bits - 1).

Definition in_range (z : Z) : Prop := min_int <= z <= max_int.

(** Reduction of a mathematical integer to the signed 64-bit value. *)
Definition wrap (z : Z) : Z := (z - min_int) mod modulus + min_int.

(** [x + y] *)
Definition add (x y : Z) : Z := wrap (x + y).

(** [x++] *)
Definition incr (x : Z) : Z := add x 1.

(** [x % y] for [y <> 0]: the remainder has the sign of the dividend. *)
Definition rem (x y : Z) : Z := Z.rem x y.

(** [len(s)] of a slice or map with the given number of elements. *)
Definition len {A} (l : list A) : Z := Z.of_nat (length l).

(** [float64(x)]: conversion to IEEE 754 binary64, rounding to nearest
    even. [of_uint63] covers magnitudes below [2^63]; the magnitude of
    [min_int] is the power of two [2^63] itself. *)
Definition float64_of_magnitude (m : Z) : float :=
  if m =? 2 ^ 63 then 0x1p+63%float
  else PrimFloat.of_uint63 (Uint63.of_Z m).

Definition float64 (x : Z) : float :=
  if x <? 0 then PrimFloat.opp (float64_of_magnitude (- x))
  else float64_of_magnitude x.

End GoInt.

(* ===================================================================== *)
(** * The result model: [Status] and [Result]                              *)
(* ===================================================================== *)

(** [type Status int32]: the four named values below, compared as
    integers. No arithmetic is done on a status, so it is kept as [Z]. *)
Definition Status : Type := Z.

Definition Success : Status := 0.
Definition Warning : Status := 1.
Definition Failure : Status := 2.
Definition Error   : Status := 3.

(** [var statusText = map[Status]string{...}] *)
Definition statusText (s : Status) : option string :=
  if s =? Success then Some "Success"%string
  else if s =? Warning then Some "Warning"%string
  else if s =? Failure then Some "Failure"%string
  else if s =? Error then Some "Error"%string
  else None.

(** [func SetStatus(oldStatus Status, newStatus Status) Status] *)
Definition SetStatus (oldStatus newStatus : Status) : Status :=
  if newStatus >? oldStatus then newStatus else oldStatus.

(** A [*Result] is an address in the store of allocated results. *)
Definition loc : Type := positive.

(** [type Result struct]. [Checks] is a Go map of pointers: [None] is the
    nil map of a zero-valued [Result], [Some m] an allocated map. *)
Record Result : Type := mkResult {
  Name     : string;
  Status_  : Status;
  Messages : list string;
  Checks   : option (gmap string loc)
}.

Definition set_Status (s : Status) (r : Result) : Result :=
  mkResult (Name r) s (Messages r) (Checks r).
Definition set_Messages (ms : list string) (r : Result) : Result :=
  mkResult (Name r) (Status_ r) ms (Checks r).
Definition set_Checks (cs : option (gmap string loc)) (r : Result) : Result :=
  mkResult (Name r) (Status_ r) (Messages r) cs.

(** The store: every [Result] that has been allocated, by address. An
    address outside the store stands for a nil pointer; dereferencing it
    panics, which the operations below report as [None]. *)
Abbreviation heap := (gmap loc Result).

Definition StatusText (r : Result) : string :=
  default EmptyString (statusText (Status_ r)).

(** [func MakeResult(name string) *Result] *)
Definition MakeResult (name : string) (h : heap) : loc * heap :=
  let l := fresh (dom h) in
  (l, <[l := mkResult name Success [] (Some ∅)]> h).

Section Reporting.

(** [fmt.Sprintf] and the values it formats are the standard library's. *)
Context {arg : Type}.
Variable Sprintf : string -> list arg -> string.

(** The common shape of [Error], [Failure] and [Warning]:
    [r.Status = SetStatus(r.Status, level)] and then
    [r.Messages = append(r.Messages, fmt.Sprintf(prefix+format, a...))]. *)
Definition report (level : Status) (prefix : string)
    (r : loc) (format : string) (a : list arg) (h : heap) : option heap :=
  res ← h !! r;
  let res1 := set_Status (SetStatus (Status_ res) level) res in
  let res2 :=
    set_Messages (Messages res1 ++ [Sprintf (prefix +:+ format) a]) res1 in
  Some (<[r := res2]> h).

(** [func (r *Result) Error(format string, a ...interface{}) *Result] *)
Definition Result_Error := report Error "Error: ".

(** [func (r *Result) Failure(format string, a ...interface{}) *Result] *)
Definition Result_Failure := report Failure "Failure: ".

(** [func (r *Result) Warning(format string, a ...interface{}) *Result] *)
Definition Result_Warning := report Warning "Warning: ".

End Reporting.

(** [func (r *Result) Success() *Result] *)
Definition Result_Success (r : loc) (h : heap) : option heap :=
  res ← h !! r;
  Some (<[r := set_Status (SetStatus (Status_ res) Success) res]> h).

(** [func (r *Result) subcheckSucceeded(checkName string) bool] *)
Definition subcheckSucceeded (r : loc) (checkName : string) (h : heap)
    : option bool :=
  res ← h !! r;
  match Checks res ≫= (.!! checkName) with
  | Some c => result ← h !! c; Some (bool_decide (Status_ result = Success))
  | None => Some false
  end.

(** [func (r *Result) addCheck(checkResult *Result)]. The second statement
    reads both results again from the updated store, so a result attached
    to itself is handled as the code does. *)
Definition addCheck (r checkResult : loc) (h : heap) : option heap :=
  res ← h !! r;
  m ← Checks res;
  child ← h !! checkResult;
  let h1 := <[r := set_Checks (Some (<[Name child := checkResult]> m)) res]> h in
  res1 ← h1 !! r;
  child1 ← h1 !! checkResult;
  Some (<[r := set_Status (SetStatus (Status_ res1) (Status_ child1)) res1]> h1).

(** ** Programs over the result API

    A client of the package builds result trees by a sequence of calls;
    [op] names one call, [exec_op] performs it on the store. *)
Section Programs.

Context {arg : Type}.
Variable Sprintf : string -> list arg -> string.

Inductive op : Type :=
  | OpMake (name : string)
  | OpError (r : loc) (format : string) (a : list arg)
  | OpFailure (r : loc) (format : string) (a : list arg)
  | OpWarning (r : loc) (format : string) (a : list arg)
  | OpSuccess (r : loc)
  | OpAddCheck (r checkResult : loc).

Definition exec_op (o : op) (h : heap) : option heap :=
  match o with
  | OpMake name => Some (snd (MakeResult name h))
  | OpError r format a => Result_Error Sprintf r format a h
  | OpFailure r format a => Result_Failure Sprintf r format a h
  | OpWarning r format a => Result_Warning Sprintf r format a h
  | OpSuccess r => Result_Success r h
  | OpAddCheck r c => addCheck r c h
  end.

Fixpoint run (ops : list op) (h : heap) : option heap :=
  match ops with
  | [] => Some h
  | o :: ops' => h' ← exec_op o h; run ops' h'
  end.

(** The level a call reports directly on the result at [l], if any. *)
Definition reported_level (o : op) (l : loc) : list Status :=
  match o with
  | OpMake _ => []
  | OpError r _ _ => if decide (r = l) then [Error] else []
  | OpFailure r _ _ => if decide (r = l) then [Failure] else []
  | OpWarning r _ _ => if decide (r = l) then [Warning] else []
  | OpSuccess r => if decide (r = l) then [Success] else []
  | OpAddCheck _ _ => []
  end.

(** The status of the child a call attaches to the result at [l], read in
    the store [h] the call starts from. *)
Definition attached_level (o : op) (h : heap) (l : loc) : list Status :=
  match o with
  | OpAddCheck r c =>
      if decide (r = l) then
        match h !! c with Some child => [Status_ child] | None => [] end
      else []
  | _ => []
  end.

(** All levels reported directly on [l] by a program. *)
Definition reported (ops : list op) (l : loc) : list Status :=
  flat_map (fun o => reported_level o l) ops.

(** All levels that reached [l] while the program ran from [h]: direct
    reports, and for each attachment the child's status at that moment. *)
Fixpoint history (ops : list op) (h : heap) (l : loc) : list Status :=
  match ops with
  | [] => []
  | o :: ops' =>
      reported_level o l ++ attached_level o h l ++
      match exec_op o h with
      | Some h' => history ops' h' l
      | None => []
      end
  end.

End Programs.

(** The most severe status of a list; [Success] when it is empty. *)
Definition max_severity (ls : list Status) : Status :=
  foldr Z.max Success ls.

(** The statuses, in the store [h], of the children now held by [res]. *)
Definition child_statuses (h : heap) (res : Result) : list Status :=
  match Checks res with
  | Some m =>
      flat_map
        (fun kc => match h !! (snd kc) with
                   | Some child => [Status_ child]
                   | None => []
                   end)
        (map_to_list m)
  | None => []
  end.

(** What the invariant of the data model would say of a program: that
    after it ran from the empty store, the status of every result is the
    most severe of the levels reported directly on it and of the statuses
    of the children it now holds. *)
Definition status_is_max_of_reports_and_children {arg : Type}
    (Sprintf : string -> list arg -> string) (ops : list op) : Prop :=
  forall h, run Sprintf ops ∅ = Some h ->
  forall l res, h !! l = Some res ->
    Status_ res = max_severity (reported ops l ++ child_statuses h res).

(** What it would mean for a call on a result to record one message. *)
Definition appends_one_message (call : loc -> heap -> option heap) : Prop :=
  forall (h : heap) r res, h !! r = Some res ->
  exists h' res' msg,
    call r h = Some h' /\ h' !! r = Some res' /\
    Messages res' = Messages res ++ [msg].

(** A stand-in for [fmt.Sprintf] on formats without verbs, used to run
    programs on concrete inputs. *)
Definition Sprintf_verbatim (format : string) (a : list string) : string :=
  format.

(** A check that fails, is attached, and is then replaced by a second
    check of the same name that succeeds. *)
Definition overwrite_program : list (@op string) :=
  [ OpMake "example.com"; OpMake "starttls";
    OpError 2%positive "no STARTTLS support" []; OpAddCheck 1%positive 2%positive;
    OpMake "starttls"; OpAddCheck 1%positive 3%positive ].

Definition overwrite_final : heap :=
  default ∅ (run Sprintf_verbatim overwrite_program ∅).

Definition domain_result : Result :=
  mkResult "example.com" Success [] (Some ∅).
Definition failed_check : Result :=
  mkResult "starttls" Error ["Error: no STARTTLS support"%string] (Some ∅).
Definition passed_check : Result :=
  mkResult "starttls" Success [] (Some ∅).

(** The store after [MakeResult] for a parent, a check that failed and a
    second check of the same name that passed. *)
Definition three_results : heap :=
  default ∅ (run Sprintf_verbatim
               [ OpMake "example.com"; OpMake "starttls";
                 OpError 2%positive "no STARTTLS support" [];
                 OpMake "starttls" ] ∅).

(** The store after [MakeResult] for a parent and two checks of different
    names, the second with a warning. *)
Definition two_checks : heap :=
  default ∅ (run Sprintf_verbatim
               [ OpMake "example.com"; OpMake "starttls";
                 OpMake "certificate";
                 OpWarning 3%positive "certificate expires soon" [] ] ∅).

(** The status of the result at [l]; [Success] where none is allocated. *)
Definition status_at (h : heap) (l : loc) : Status :=
  match h !! l with
  | Some res => Status_ res
  | None => Success
  end.

(** No result of the store has a status below [Success]. *)
Definition statuses_nonneg (h : heap) : Prop :=
  forall l res, h !! l = Some res -> Success <= Status_ res.

(** ** The rest of the result model *)

(** [var checkNames = map[string]string{...}] *)
Definition Connectivity : string := "connectivity".
Definition STARTTLS : string := "starttls".
Definition Version : string := "version".
Definition Certificate : string := "certificate".
Definition MTASTS : string := "mta-sts".
Definition MTASTSText : string := "mta-sts-text".
Definition MTASTSPolicyFile : string := "mta-sts-policy-file".
Definition PolicyList : string := "policylist".

Definition checkNames : gmap string string :=
  list_to_map
    [ (Connectivity, "Server connectivity"%string);
      (STARTTLS, "Support for inbound STARTTLS"%string);
      (Version, "Secure version of TLS"%string);
      (Certificate, "Valid certificate"%string);
      (MTASTS, "Inbound MTA-STS support"%string);
      (MTASTSText, "Correct MTA-STS DNS record"%string);
      (MTASTSPolicyFile, "Correct MTA-STS policy file"%string);
      (PolicyList,
       "Status on EFF's STARTTLS Everywhere policy list"%string) ].

(** [func (r Result) Description() string]: a missing key reads as the
    empty string. *)
Definition Description (r : Result) : string :=
  default EmptyString (checkNames !! Name r).

(** One of the four declared values of [Status]. *)
Definition known_status (s : Status) : Prop :=
  s = Success \/ s = Warning \/ s = Failure \/ s = Error.

(** What holds of a store built through the API: every status is a
    declared one, every [Checks] map is allocated, and every entry of it
    points to an allocated result filed under that result's own name. *)
Definition wf_heap (h : heap) : Prop :=
  forall l res, h !! l = Some res ->
    known_status (Status_ res) /\
    exists m, Checks res = Some m /\
      forall k c, m !! k = Some c ->
        exists child, h !! c = Some child /\ Name child = k.

(** How a store may change while a program runs: no result disappears or
    is renamed, no status decreases, messages are only added at the end
    and no name leaves a [Checks] map. *)
Definition evolves (h h' : heap) : Prop :=
  forall l res, h !! l = Some res ->
    exists res', h' !! l = Some res' /\
      Name res' = Name res /\
      Status_ res <= Status_ res' /\
      Messages res `prefix_of` Messages res' /\
      forall m, Checks res = Some m ->
        exists m', Checks res' = Some m' /\ dom m ⊆ dom m'.

(** [Messages] of the result at [l]; none where no result is allocated. *)
Definition messages_at (h : heap) (l : loc) : list string :=
  match h !! l with
  | Some res => Messages res
  | None => []
  end.

(** The results that are a child of some result of the store. *)
Definition children (h : heap) : list loc :=
  map_to_list h ≫= fun lr =>
    match Checks (snd lr) with
    | Some m => snd <$> map_to_list m
    | None => []
    end.

Section MorePrograms.

Context {arg : Type}.
Variable Sprintf : string -> list arg -> string.

(** The pointers a call dereferences. *)
Definition op_pointers (o : @op arg) : list loc :=
  match o with
  | OpMake _ => []
  | OpError r _ _ | OpFailure r _ _ | OpWarning r _ _ | OpSuccess r => [r]
  | OpAddCheck r c => [r; c]
  end.

(** The message a call appends to the result at [l], if any. *)
Definition message_of (o : @op arg) (l : loc) : list string :=
  match o with
  | OpError r format a =>
      if decide (r = l) then [Sprintf ("Error: " +:+ format) a] else []
  | OpFailure r format a =>
      if decide (r = l) then [Sprintf ("Failure: " +:+ format) a] else []
  | OpWarning r format a =>
      if decide (r = l) then [Sprintf ("Warning: " +:+ format) a] else []
  | OpMake _ | OpSuccess _ | OpAddCheck _ _ => []
  end.

(** All messages a program appends to the result at [l], in call order. *)
Definition messages_logged (ops : list (@op arg)) (l : loc) : list string :=
  ops ≫= fun o => message_of o l.

(** A program that builds its trees bottom-up: no call has as its receiver
    a result that is already the child of some result. *)
Fixpoint bottom_up (ops : list (@op arg)) (h : heap) : bool :=
  match ops with
  | [] => true
  | o :: ops' =>
      match o with
      | OpMake _ => true
      | OpError r _ _ | OpFailure r _ _ | OpWarning r _ _ | OpSuccess r
      | OpAddCheck r _ => bool_decide (r ∉ children h)
      end
      && match exec_op Sprintf o h with
         | Some h' => bottom_up ops' h'
         | None => true
         end
  end.

End MorePrograms.

(** Every result of the store is at least as severe as each child it
    holds. *)
Definition parents_dominate (h : heap) : Prop :=
  forall l res m k c child,
    h !! l = Some res -> Checks res = Some m -> m !! k = Some c ->
    h !! c = Some child -> Status_ child <= Status_ res.

(* ===================================================================== *)
(** * checker/totals.go: aggregated statistics                            *)
(* ===================================================================== *)

(** Modelled from the spec: [MTASTSResult] and [DomainResult] are declared
    in files of the package outside this development. Of a policy result
    the aggregator reads [Mode]; of a domain result it reads [Domain], the
    number of entries of [HostnameResults] (kept here as the list of the
    host names checked) and the optional [MTASTSResult] pointer. *)
Record MTASTSResult : Type := mkMTASTSResult {
  Mode : string
}.

(** Modelled from the spec: [DomainResult], declared outside this
    development; the fields the aggregator and the pipeline read. *)
Record DomainResult : Type := mkDomainResult {
  Domain          : string;
  HostnameResults : list string;
  MTASTSResult_   : option MTASTSResult
}.

(** [type AggregatedScan struct]. [Time] is kept as an opaque timestamp. *)
Record AggregatedScan : Type := mkAggregatedScan {
  Time              : Z;
  Source            : string;
  Attempted         : Z;
  WithMXs           : Z;
  MTASTSTesting     : Z;
  MTASTSTestingList : list string;
  MTASTSEnforce     : Z;
  MTASTSEnforceList : list string
}.

Definition TopDomainsSource : string := "TOP_DOMAINS".
Definition LocalSource : string := "LOCAL".

(** The zero value of the struct. *)
Definition zero_scan : AggregatedScan :=
  mkAggregatedScan 0 EmptyString 0 0 0 [] 0 [].

(** [func (a AggregatedScan) TotalMTASTS() int] *)
Definition TotalMTASTS (a : AggregatedScan) : Z :=
  GoInt.add (MTASTSTesting a) (MTASTSEnforce a).

(** [func (a AggregatedScan) PercentMTASTS() float64] *)
Definition PercentMTASTS (a : AggregatedScan) : float :=
  if WithMXs a =? 0 then 0%float
  else PrimFloat.div
         (PrimFloat.mul 100%float (GoInt.float64 (TotalMTASTS a)))
         (GoInt.float64 (WithMXs a)).

Definition incr_Attempted (a : AggregatedScan) : AggregatedScan :=
  mkAggregatedScan (Time a) (Source a) (GoInt.incr (Attempted a)) (WithMXs a)
    (MTASTSTesting a) (MTASTSTestingList a)
    (MTASTSEnforce a) (MTASTSEnforceList a).

Definition incr_WithMXs (a : AggregatedScan) : AggregatedScan :=
  mkAggregatedScan (Time a) (Source a) (Attempted a) (GoInt.incr (WithMXs a))
    (MTASTSTesting a) (MTASTSTestingList a)
    (MTASTSEnforce a) (MTASTSEnforceList a).

(** [a.MTASTSEnforce++] and
    [a.MTASTSEnforceList = append(a.MTASTSEnforceList, domain)] *)
Definition count_enforce (domain : string) (a : AggregatedScan)
    : AggregatedScan :=
  mkAggregatedScan (Time a) (Source a) (Attempted a) (WithMXs a)
    (MTASTSTesting a) (MTASTSTestingList a)
    (GoInt.incr (MTASTSEnforce a)) (MTASTSEnforceList a ++ [domain]).

(** [a.MTASTSTesting++] and
    [a.MTASTSTestingList = append(a.MTASTSTestingList, domain)] *)
Definition count_testing (domain : string) (a : AggregatedScan)
    : AggregatedScan :=
  mkAggregatedScan (Time a) (Source a) (Attempted a) (WithMXs a)
    (GoInt.incr (MTASTSTesting a)) (MTASTSTestingList a ++ [domain])
    (MTASTSEnforce a) (MTASTSEnforceList a).

(** What the progress report prints: the struct and its two lists, as they
    are when [Attempted] has just reached a multiple of 1000. *)
Definition progress (a : AggregatedScan) : list AggregatedScan :=
  if GoInt.rem (Attempted a) 1000 =? 0 then [a] else [].

(** [func (a *AggregatedScan) HandleDomain(r DomainResult)]: the updated
    struct, and what was written to the log. *)
Definition HandleDomain_log (a : AggregatedScan) (r : DomainResult)
    : AggregatedScan * list AggregatedScan :=
  let a1 := incr_Attempted a in
  let out := progress a1 in
  if GoInt.len (HostnameResults r) =? 0 then (a1, out)
  else
    let a2 := incr_WithMXs a1 in
    match MTASTSResult_ r with
    | Some policy =>
        if String.eqb (Mode policy) "enforce" then
          (count_enforce (Domain r) a2, out)
        else if String.eqb (Mode policy) "testing" then
          (count_testing (Domain r) a2, out)
        else (a2, out)
    | None => (a2, out)
    end.

Definition HandleDomain (a : AggregatedScan) (r : DomainResult)
    : AggregatedScan :=
  fst (HandleDomain_log a r).

(** The aggregate after a sequence of results, delivered in order. *)
Definition handle_all (a : AggregatedScan) (rs : list DomainResult)
    : AggregatedScan :=
  foldl HandleDomain a rs.

(** The relations between the counters and the lists of an aggregate. *)
Definition sink_invariant (a : AggregatedScan) : Prop :=
  GoInt.len (MTASTSEnforceList a) = MTASTSEnforce a /\
  GoInt.len (MTASTSTestingList a) = MTASTSTesting a /\
  MTASTSEnforce a + MTASTSTesting a <= WithMXs a /\
  WithMXs a <= Attempted a.

(** What [sink_invariant] needs to be carried through a call. *)
Definition counting (a : AggregatedScan) : Prop :=
  sink_invariant a /\ 0 <= MTASTSEnforce a /\ 0 <= MTASTSTesting a.

(** A domain with one mail host and an MTA-STS policy in enforce mode. *)
Definition enforce_result : DomainResult :=
  mkDomainResult "example.com" ["mx.example.com"%string]
    (Some (mkMTASTSResult "enforce")).

(** A domain without MX records: no host was checked. *)
Definition no_mx_result : DomainResult :=
  mkDomainResult "example.invalid" [] None.

(** ** What an aggregate has counted *)

(** An aggregate that has seen no domain yet, with its time and label. *)
Definition fresh_scan (t : Z) (source : string) : AggregatedScan :=
  mkAggregatedScan t source 0 0 0 [] 0 [].

(** [len(r.HostnameResults) != 0] *)
Definition has_hosts (r : DomainResult) : bool :=
  negb (GoInt.len (HostnameResults r) =? 0).

(** The result is counted in the bucket of [mode]: it has hosts and a
    policy result in that mode. *)
Definition in_mode (mode : string) (r : DomainResult) : bool :=
  has_hosts r &&
  match MTASTSResult_ r with
  | Some policy => String.eqb (Mode policy) mode
  | None => false
  end.

Definition with_hosts (rs : list DomainResult) : list DomainResult :=
  filter (fun r => has_hosts r = true) rs.

Definition domains_in_mode (mode : string) (rs : list DomainResult)
    : list string :=
  Domain <$> filter (fun r => in_mode mode r = true) rs.

(** A counter after [n] increments. *)
Definition incr_times (n : nat) (x : Z) : Z := Nat.iter n GoInt.incr x.

(** What a run of [HandleDomain] calls writes to the log, in order. *)
Fixpoint handle_all_log (a : AggregatedScan) (rs : list DomainResult)
    : list AggregatedScan :=
  match rs with
  | [] => []
  | r :: rs' =>
      snd (HandleDomain_log a r) ++ handle_all_log (HandleDomain a r) rs'
  end.

(* ===================================================================== *)
(** * checker/totals.go: the batch pipeline [CheckCSV]                    *)
(* ===================================================================== *)

Definition defaultPoolSize : Z := 16.

(** [strconv.Atoi(os.Getenv("CONNECTION_POOL_SIZE"))] yields a number or an
    error ([None]); the pool size falls back to the default when there is
    an error or the number is not positive. *)
Definition poolSize_of (atoi : option Z) : Z :=
  match atoi with
  | Some n => if n <=? 0 then defaultPoolSize else n
  | None => defaultPoolSize
  end.

(** One call of [domains.Read()] that is not the end of the input: a record
    or an error other than [io.EOF]. The reader is the list of these
    results; when it is exhausted [Read] returns [io.EOF]. *)
Inductive read_result : Type :=
  | RRow (data : list string)
  | RErr.

(** [data[domainColumn]]: Go checks the index and panics out of range. *)
Definition index (data : list string) (i : Z) : option string :=
  if (0 <=? i) && (i <? GoInt.len data) then data !! Z.to_nat i else None.

(** How the program can die instead of returning. *)
Inductive crash : Type :=
  | FatalReadError        (* log.Fatal(err) *)
  | PanicIndexOutOfRange  (* data[domainColumn] *)
  | PanicSendOnClosed     (* results <- ... after close(results) *)
  | PanicCloseOfClosed.   (* close(results) twice *)

(** What the producer goroutine sends on [work], in order, and how it
    ends: [None] when it closes [work] and returns. *)
Fixpoint enqueue (domainColumn : Z) (reader : list read_result)
    : list string * option crash :=
  match reader with
  | [] => ([], None)
  | RErr :: _ => ([], Some FatalReadError)
  | RRow data :: rest =>
      if GoInt.len data >? 0 then
        match index data domainColumn with
        | Some d =>
            let '(ds, e) := enqueue domainColumn rest in (d :: ds, e)
        | None => ([], Some PanicIndexOutOfRange)
        end
      else enqueue domainColumn rest
  end.

(** Control points of the goroutines. The channels [work], [results] and
    [done] are unbuffered: a send and a receive happen together. *)
Inductive producer_pc : Type :=
  | PRead                  (* at [domains.Read()] *)
  | PSend (d : string)     (* at [work <- d] *)
  | PDone.                 (* after [close(work)] *)

Inductive worker_pc : Type :=
  | WRecv                       (* at [range work] *)
  | WCheck (domain : string)    (* calling [c.CheckDomain(domain, nil)] *)
  | WSend (r : DomainResult)    (* at [results <- r] *)
  | WSignal                     (* at [done <- struct{}{}] *)
  | WExit.

Inductive supervisor_pc : Type :=
  | SWait (i : nat)   (* in the loop, [i] signals received *)
  | SDone.            (* after [close(results)] *)

Inductive consumer_pc : Type :=
  | MRecv             (* at [range results] *)
  | MReturned.        (* [CheckCSV] has returned *)

Section Pipeline.

(** The result handler is an interface value: a state and its
    [HandleDomain] method. [CheckDomain] is the checker's method, declared
    outside this development; it is taken as a function. *)
Context {handler_state : Type}.
Variable handle : handler_state -> DomainResult -> handler_state.
Variable CheckDomain : string -> DomainResult.
Variable domainColumn : Z.
Variable poolSize : nat.

Record pipeline : Type := mkPipeline {
  reader         : list read_result;
  producer       : producer_pc;
  work_closed    : bool;
  workers        : list worker_pc;
  supervisor     : supervisor_pc;
  results_closed : bool;
  closes         : nat;   (* how many times [close(results)] was executed *)
  consumer       : consumer_pc;
  handler        : handler_state;
  delivered      : list DomainResult  (* arguments of the [HandleDomain] calls *)
}.

Inductive config : Type :=
  | Running (s : pipeline)
  | Crashed (c : crash).

Definition set_producer (rd : list read_result) (p : producer_pc)
    (wc : bool) (s : pipeline) : pipeline :=
  mkPipeline rd p wc (workers s) (supervisor s) (results_closed s)
    (closes s) (consumer s) (handler s) (delivered s).

Definition set_worker (i : nat) (w : worker_pc) (s : pipeline) : pipeline :=
  mkPipeline (reader s) (producer s) (work_closed s) (<[i := w]> (workers s))
    (supervisor s) (results_closed s) (closes s) (consumer s) (handler s)
    (delivered s).

Definition set_supervisor (sv : supervisor_pc) (s : pipeline) : pipeline :=
  mkPipeline (reader s) (producer s) (work_closed s) (workers s) sv
    (results_closed s) (closes s) (consumer s) (handler s) (delivered s).

Definition close_results (s : pipeline) : pipeline :=
  mkPipeline (reader s) (producer s) (work_closed s) (workers s) SDone
    true (S (closes s)) (consumer s) (handler s) (delivered s).

Definition deliver (r : DomainResult) (s : pipeline) : pipeline :=
  mkPipeline (reader s) (producer s) (work_closed s) (workers s)
    (supervisor s) (results_closed s) (closes s) (consumer s)
    (handle (handler s) r) (delivered s ++ [r]).

Definition set_consumer (c : consumer_pc) (s : pipeline) : pipeline :=
  mkPipeline (reader s) (producer s) (work_closed s) (workers s)
    (supervisor s) (results_closed s) (closes s) c (handler s) (delivered s).

(** The state in which [CheckCSV] starts its goroutines. A goroutine that
    has not been scheduled yet is at its first control point. *)
Definition start (rd : list read_result) (h0 : handler_state) : pipeline :=
  mkPipeline rd PRead false (replicate poolSize WRecv) (SWait 0) false 0
    MRecv h0 [].

(** The moves of the scheduler: which goroutine runs up to its next
    control point, or which pair meets on a channel. *)
Inductive action : Type :=
  | AProducer              (* the producer reads, or closes [work] *)
  | AHandOff (i : nat)     (* the producer sends, worker [i] receives *)
  | ACheck (i : nat)       (* worker [i] runs [CheckDomain] *)
  | ADeliver (i : nat)     (* worker [i] sends, the consumer handles *)
  | ARangeEnd (i : nat)    (* worker [i] sees [work] closed *)
  | ASignal (i : nat)      (* worker [i] signals, the supervisor receives *)
  | ASupervisor            (* the supervisor closes [results] *)
  | AConsumer.             (* the consumer sees [results] closed *)

Definition fire (a : action) (s : pipeline) : option config :=
  match a with
  | AProducer =>
      match producer s with
      | PRead =>
          match reader s with
          | [] => Some (Running (set_producer [] PDone true s))
          | RErr :: _ => Some (Crashed FatalReadError)
          | RRow data :: rest =>
              if GoInt.len data >? 0 then
                match index data domainColumn with
                | Some d =>
                    Some (Running (set_producer rest (PSend d)
                                     (work_closed s) s))
                | None => Some (Crashed PanicIndexOutOfRange)
                end
              else Some (Running (set_producer rest PRead (work_closed s) s))
          end
      | _ => None
      end
  | AHandOff i =>
      match producer s, workers s !! i with
      | PSend d, Some WRecv =>
          Some (Running (set_worker i (WCheck d)
                           (set_producer (reader s) PRead (work_closed s) s)))
      | _, _ => None
      end
  | ACheck i =>
      match workers s !! i with
      | Some (WCheck d) =>
          Some (Running (set_worker i (WSend (CheckDomain d)) s))
      | _ => None
      end
  | ADeliver i =>
      match workers s !! i with
      | Some (WSend r) =>
          if results_closed s then Some (Crashed PanicSendOnClosed)
          else
            match consumer s with
            | MRecv => Some (Running (set_worker i WRecv (deliver r s)))
            | MReturned => None
            end
      | _ => None
      end
  | ARangeEnd i =>
      match workers s !! i with
      | Some WRecv =>
          if work_closed s then Some (Running (set_worker i WSignal s))
          else None
      | _ => None
      end
  | ASignal i =>
      match workers s !! i, supervisor s with
      | Some WSignal, SWait k =>
          if decide (k < poolSize)%nat then
            Some (Running (set_worker i WExit (set_supervisor (SWait (S k)) s)))
          else None
      | _, _ => None
      end
  | ASupervisor =>
      match supervisor s with
      | SWait k =>
          if decide (k < poolSize)%nat then None
          else if results_closed s then Some (Crashed PanicCloseOfClosed)
          else Some (Running (close_results s))
      | SDone => None
      end
  | AConsumer =>
      match consumer s with
      | MRecv =>
          if results_closed s then Some (Running (set_consumer MReturned s))
          else None
      | MReturned => None
      end
  end.

(** One step of the program, under some scheduling choice. *)
Definition step (c c' : config) : Prop :=
  match c with
  | Running s => exists a, fire a s = Some c'
  | Crashed _ => False
  end.

(** Running a schedule from a configuration; a move that is not enabled
    is skipped. *)
Fixpoint exec (sched : list action) (c : config) : config :=
  match sched, c with
  | a :: sched', Running s =>
      match fire a s with
      | Some c' => exec sched' c'
      | None => exec sched' c
      end
  | _, _ => c
  end.

(** Work still owed by a configuration; every step lowers it. *)
Definition producer_weight (p : producer_pc) : nat :=
  match p with PRead => 1 | PSend _ => 4 | PDone => 0 end.

Definition worker_weight (w : worker_pc) : nat :=
  match w with
  | WRecv => 2 | WCheck _ => 4 | WSend _ => 3 | WSignal => 1 | WExit => 0
  end.

Definition supervisor_weight (sv : supervisor_pc) : nat :=
  match sv with SWait _ => 1 | SDone => 0 end.

Definition consumer_weight (c : consumer_pc) : nat :=
  match c with MRecv => 1 | MReturned => 0 end.

Definition weight (s : pipeline) : nat :=
  (5 * length (reader s) + producer_weight (producer s)
   + sum_list (worker_weight <$> workers s)
   + supervisor_weight (supervisor s) + consumer_weight (consumer s))%nat.

Definition measure (c : config) : nat :=
  match c with
  | Running s => S (weight s)
  | Crashed _ => 0
  end.

(** The results the workers hold: checked or about to be. *)
Definition holding (w : worker_pc) : list DomainResult :=
  match w with
  | WCheck d => [CheckDomain d]
  | WSend r => [r]
  | _ => []
  end.

Definition sending (p : producer_pc) : list string :=
  match p with PSend d => [d] | _ => [] end.

(** ** What holds of every configuration a run can reach *)

Definition exited (w : worker_pc) : bool :=
  match w with WExit => true | _ => false end.

Definition exited_weight (w : worker_pc) : nat :=
  if exited w then 1%nat else 0%nat.

(** How many workers have sent their completion signal. *)
Definition exited_count (ws : list worker_pc) : nat :=
  sum_list (exited_weight <$> ws).

(** A worker still inside its [range work] loop. *)
Definition working (w : worker_pc) : Prop :=
  match w with
  | WRecv | WCheck _ | WSend _ => True
  | WSignal | WExit => False
  end.

(** A worker that can move without the producer. *)
Definition busy (w : worker_pc) : Prop :=
  match w with
  | WCheck _ | WSend _ | WSignal => True
  | WRecv | WExit => False
  end.

(** The supervisor has counted exactly the workers that have finished,
    and [results] is closed, once, only when it has counted them all. *)
Definition supervisor_inv (s : pipeline) : Prop :=
  match supervisor s with
  | SWait k =>
      k = exited_count (workers s) /\ results_closed s = false /\
      closes s = 0%nat
  | SDone =>
      Forall (fun w => w = WExit) (workers s) /\ results_closed s = true /\
      closes s = 1%nat
  end.

(** [ids] are the identifiers of the whole input and [h0] the handler's
    state at the start. Every identifier is accounted for exactly once:
    its result has been delivered, or a worker holds it, or the producer is
    sending it, or it has not been read yet. *)
Definition pipeline_inv (ids : list string) (h0 : handler_state)
    (s : pipeline) : Prop :=
  length (workers s) = poolSize /\
  snd (enqueue domainColumn (reader s)) = None /\
  CheckDomain <$> ids ≡ₚ
    delivered s ++ (workers s ≫= holding) ++
    (CheckDomain <$> (sending (producer s)
                      ++ fst (enqueue domainColumn (reader s)))) /\
  handler s = foldl handle h0 (delivered s) /\
  (work_closed s = true <-> producer s = PDone) /\
  (producer s = PDone -> reader s = []) /\
  (work_closed s = false -> Forall working (workers s)) /\
  supervisor_inv s /\
  (consumer s = MReturned -> results_closed s = true).

Definition config_inv (ids : list string) (h0 : handler_state)
    (c : config) : Prop :=
  match c with
  | Running s => pipeline_inv ids h0 s
  | Crashed _ => False
  end.

End Pipeline.

(** ** The input as the producer sees it *)

(** A record the producer gets past: an empty one, or one that has the
    identifier column. A read error is not. *)
Definition row_ok (domainColumn : Z) (rr : read_result) : bool :=
  match rr with
  | RRow data =>
      (GoInt.len data =? 0)
      || ((0 <=? domainColumn) && (domainColumn <? GoInt.len data))
  | RErr => false
  end.

(** The identifier a record contributes, if any. *)
Definition field (domainColumn : Z) (rr : read_result) : option string :=
  match rr with
  | RRow data => index data domainColumn
  | RErr => None
  end.

(** How the program dies on a record the producer does not get past. *)
Definition crash_of (rr : read_result) : crash :=
  match rr with
  | RRow _ => PanicIndexOutOfRange
  | RErr => FatalReadError
  end.

(** Two aggregates that differ at most in the order of their lists. *)
Definition same_counts (x y : AggregatedScan) : Prop :=
  Time x = Time y /\ Source x = Source y /\
  Attempted x = Attempted y /\ WithMXs x = WithMXs y /\
  MTASTSEnforce x = MTASTSEnforce y /\ MTASTSTesting x = MTASTSTesting y /\
  MTASTSEnforceList x ≡ₚ MTASTSEnforceList y /\
  MTASTSTestingList x ≡ₚ MTASTSTestingList y.

Section PipelineRuns.

Context {handler_state : Type}.
Variable handle : handler_state -> DomainResult -> handler_state.
Variable CheckDomain : string -> DomainResult.
Variable domainColumn : Z.
Variable poolSize : nat.

(** What holds of every configuration of a run whose input will make the
    producer die with [e]: [work] and [results] are open, no worker has
    left its loop, and the identifiers read so far are accounted for. *)
Definition failing_inv (e : crash) (ids : list string) (h0 : handler_state)
    (s : @pipeline handler_state) : Prop :=
  length (workers s) = poolSize /\
  snd (enqueue domainColumn (reader s)) = Some e /\
  CheckDomain <$> ids ≡ₚ
    delivered s ++ (workers s ≫= holding CheckDomain) ++
    (CheckDomain <$> (sending (producer s)
                      ++ fst (enqueue domainColumn (reader s)))) /\
  handler s = foldl handle h0 (delivered s) /\
  producer s <> PDone /\
  work_closed s = false /\
  Forall working (workers s) /\
  supervisor s = SWait 0 /\
  results_closed s = false /\
  consumer s = MRecv.

(** With a single worker the identifiers stay in input order: first the
    results delivered, then the one the worker holds, then the one the
    producer is sending, then those not read yet. *)
Definition ordered_inv (ids : list string) (s : @pipeline handler_state)
    : Prop :=
  exists w,
    workers s = [w] /\
    CheckDomain <$> ids =
      delivered s ++ holding CheckDomain w ++
      (CheckDomain <$> (sending (producer s)
                        ++ fst (enqueue domainColumn (reader s)))).

End PipelineRuns.

(** A checker that reports one host for every domain, and a run of two
    workers over three rows, the second of them empty, in which the second
    domain is delivered before the first. *)
Definition check_stub (domain : string) : DomainResult :=
  mkDomainResult domain [domain] None.

Definition three_rows : list read_result :=
  [ RRow ["a.example"%string]; RRow [];
    RRow ["b.example"%string; "2"%string] ].

Definition two_worker_schedule : list action :=
  [ AProducer; AHandOff 0; ACheck 0; AProducer; AProducer; AHandOff 1;
    ACheck 1; ADeliver 1; ADeliver 0; AProducer; ARangeEnd 0; ARangeEnd 1;
    ASignal 1; ASignal 0; ASupervisor; AConsumer ].

(** [func (c *Checker) CheckCSV(domains, resultHandler, domainColumn)]
    with the environment's pool size setting: where it starts. *)
Definition CheckCSV_pool (atoi : option Z) : nat :=
  Z.to_nat (poolSize_of atoi).

(* ===================================================================== *)
(** * Properties of the status lattice                                    *)
(* ===================================================================== *)

Lemma SetStatus_max old new : SetStatus old new = Z.max old new.
Proof.
  unfold SetStatus. destruct (Z.gtb_spec new old); lia.
Qed.

Lemma SetStatus_ge_old old new : old <= SetStatus old new.
Proof. rewrite SetStatus_max. lia. Qed.

(** C1: [SetStatus] returns the new status when it is strictly more severe
    than the old one and the old status otherwise, under the order
    Success < Warning < Failure < Error; it is the maximum of its two
    arguments, hence associative and idempotent; and it maps
    (Success, Warning) to Warning, (Failure, Success) to Failure and
    (Error, Error) to Error. *)
Theorem SetStatus_combine :
  (Success < Warning /\ Warning < Failure /\ Failure < Error) /\
  (forall old new : Status,
      (old < new -> SetStatus old new = new) /\
      (new <= old -> SetStatus old new = old) /\
      SetStatus old new = Z.max old new) /\
  (forall a b c : Status,
      SetStatus (SetStatus a b) c = SetStatus a (SetStatus b c)) /\
  (forall a : Status, SetStatus a a = a) /\
  SetStatus Success Warning = Warning /\
  SetStatus Failure Success = Failure /\
  SetStatus Error Error = Error.
Proof.
  split; [unfold Success, Warning, Failure, Error; lia |].
  split.
  { intros old new. rewrite SetStatus_max. lia. }
  split.
  { intros a b c. rewrite !SetStatus_max. lia. }
  split.
  { intros a. rewrite SetStatus_max. lia. }
  repeat split; reflexivity.
Qed.

(* ===================================================================== *)
(** * Properties of the result operations                                 *)
(* ===================================================================== *)

Section ResultOperations.

Context {arg : Type}.
Variable Sprintf : string -> list arg -> string.

Lemma report_spec level prefix r format a (h : heap) res :
  h !! r = Some res ->
  report Sprintf level prefix r format a h =
    Some (<[r := mkResult (Name res) (SetStatus (Status_ res) level)
                  (Messages res ++ [Sprintf (prefix +:+ format) a])
                  (Checks res)]> h).
Proof. intros Hr. unfold report. rewrite Hr. reflexivity. Qed.

Lemma Result_Success_spec r (h : heap) res :
  h !! r = Some res ->
  Result_Success r h =
    Some (<[r := mkResult (Name res) (SetStatus (Status_ res) Success)
                  (Messages res) (Checks res)]> h).
Proof. intros Hr. unfold Result_Success. rewrite Hr. reflexivity. Qed.

Lemma addCheck_spec r c (h : heap) res m child :
  h !! r = Some res -> Checks res = Some m -> h !! c = Some child ->
  addCheck r c h =
    Some (<[r := mkResult (Name res)
                  (SetStatus (Status_ res) (Status_ child))
                  (Messages res) (Some (<[Name child := c]> m))]> h).
Proof.
  intros Hr Hm Hc. unfold addCheck. rewrite Hr. simpl. rewrite Hm. simpl.
  rewrite Hc. simpl. rewrite lookup_insert_eq. simpl.
  destruct (decide (r = c)) as [->|Hne].
  - rewrite lookup_insert_eq. simpl. rewrite insert_insert_eq.
    assert (child = res) as -> by congruence. reflexivity.
  - rewrite lookup_insert_ne by done. rewrite Hc. simpl.
    rewrite insert_insert_eq. reflexivity.
Qed.

Lemma MakeResult_lookup name (h : heap) :
  snd (MakeResult name h) !! fst (MakeResult name h) =
    Some (mkResult name Success [] (Some ∅)).
Proof. unfold MakeResult. simpl. apply lookup_insert_eq. Qed.

Lemma MakeResult_fresh name (h : heap) : h !! fst (MakeResult name h) = None.
Proof.
  unfold MakeResult. simpl. apply not_elem_of_dom. apply is_fresh.
Qed.

Lemma MakeResult_other name (h : heap) l :
  l <> fst (MakeResult name h) -> snd (MakeResult name h) !! l = h !! l.
Proof. intros Hne. unfold MakeResult. simpl. by rewrite lookup_insert_ne. Qed.

End ResultOperations.

Section ResultClaims.

Context {arg : Type}.
Variable Sprintf : string -> list arg -> string.

(** C5: [addCheck] stores the child under its name in the parent's
    [Checks], replacing any child of that name, then sets the parent's
    status to [SetStatus] of the parent's and the child's status; nothing
    else changes. So the parent's status never decreases: a parent at
    Success that receives a child at Error is at Error, and a parent at
    Error that then receives a child at Success, under any name, stays at
    Error. *)
Theorem addCheck_escalates (h : heap) (r c : loc) res m child :
  h !! r = Some res -> Checks res = Some m -> h !! c = Some child ->
  exists h' res',
    addCheck r c h = Some h' /\ h' !! r = Some res' /\
    Checks res' = Some (<[Name child := c]> m) /\
    <[Name child := c]> m !! Name child = Some c /\
    (forall x, x <> Name child -> <[Name child := c]> m !! x = m !! x) /\
    Status_ res' = SetStatus (Status_ res) (Status_ child) /\
    Status_ res <= Status_ res' /\
    Name res' = Name res /\ Messages res' = Messages res /\
    (forall l, l <> r -> h' !! l = h !! l) /\
    (Status_ res = Success -> Status_ child = Error ->
     Status_ res' = Error /\
     forall (g : heap) p mp c2 child2,
       g !! r = Some p -> Status_ p = Status_ res' -> Checks p = Some mp ->
       g !! c2 = Some child2 -> Status_ child2 = Success ->
       exists g' p', addCheck r c2 g = Some g' /\ g' !! r = Some p' /\
                     Checks p' = Some (<[Name child2 := c2]> mp) /\
                     Status_ p' = Error).
Proof.
  intros Hr Hm Hc.
  eexists _, _. split; [by apply addCheck_spec |].
  split; [apply lookup_insert_eq |]. simpl.
  split; [done |]. split; [apply lookup_insert_eq |].
  split; [intros x Hx; by rewrite lookup_insert_ne |].
  split; [done |]. split; [apply SetStatus_ge_old |].
  split; [done |]. split; [done |].
  split; [intros l Hl; by rewrite lookup_insert_ne |].
  intros Hs He. rewrite Hs, He. split; [reflexivity |].
  intros g p mp c2 child2 Hp Hps Hmp Hc2 Hs2.
  eexists _, _. split; [by apply addCheck_spec |].
  split; [apply lookup_insert_eq |]. simpl. split; [done |].
  rewrite Hps, Hs2. reflexivity.
Qed.

(** C8: [subcheckSucceeded] on an allocated result returns true exactly
    when its [Checks] holds a child under that name whose status is
    Success. It returns false, and does not fail, when no child is held
    under the name (in particular on a result just made) and when the
    child held has any other status; after [addCheck] it answers for the
    child just attached. *)
Theorem subcheckSucceeded_iff (h : heap) (r : loc) (x : string) res :
  h !! r = Some res ->
  (subcheckSucceeded r x h = Some true <->
   exists m c child, Checks res = Some m /\ m !! x = Some c /\
                     h !! c = Some child /\ Status_ child = Success) /\
  (Checks res ≫= (.!! x) = None -> subcheckSucceeded r x h = Some false) /\
  (forall m c child,
      Checks res = Some m -> m !! x = Some c -> h !! c = Some child ->
      Status_ child <> Success -> subcheckSucceeded r x h = Some false) /\
  (forall name, let (l, h1) := MakeResult name h in
                subcheckSucceeded l x h1 = Some false) /\
  (forall c child h',
      h !! c = Some child -> addCheck r c h = Some h' ->
      subcheckSucceeded r (Name child) h' =
        Some (bool_decide (Status_ child = Success))).
Proof.
  intros Hr. unfold subcheckSucceeded at 1 2 3. rewrite Hr. simpl.
  split; [| split; [| split; [| split]]].
  - split.
    + destruct (Checks res) as [m|] eqn:Hm; simpl; [| done].
      destruct (m !! x) as [c|] eqn:Hx; [| done].
      destruct (h !! c) as [child|] eqn:Hc; simpl; [| done].
      intros [= Hb]. apply bool_decide_eq_true in Hb. by exists m, c, child.
    + intros (m & c & child & -> & Hx & Hc & Hs). simpl. rewrite Hx, Hc.
      simpl. rewrite bool_decide_eq_true_2; done.
  - intros ->. done.
  - intros m c child -> Hx Hc Hs. simpl. rewrite Hx, Hc. simpl.
    rewrite bool_decide_eq_false_2; done.
  - intros name. unfold MakeResult, subcheckSucceeded.
    rewrite lookup_insert_eq. simpl. by rewrite lookup_empty.
  - intros c child h' Hc Hadd.
    unfold addCheck in Hadd. rewrite Hr in Hadd. simpl in Hadd.
    destruct (Checks res) as [m|] eqn:Hm; [| done].
    pose proof (addCheck_spec r c h res m child Hr Hm Hc) as Hspec.
    unfold addCheck in Hspec. rewrite Hr in Hspec. simpl in Hspec.
    rewrite Hm in Hspec. rewrite Hspec in Hadd. injection Hadd as <-.
    unfold subcheckSucceeded. rewrite lookup_insert_eq. simpl.
    rewrite lookup_insert_eq.
    destruct (decide (r = c)) as [->|Hne].
    + rewrite lookup_insert_eq. simpl.
      assert (child = res) as -> by congruence.
      f_equal. apply bool_decide_ext. rewrite SetStatus_max. lia.
    + rewrite lookup_insert_ne by done. rewrite Hc. done.
Qed.

(** C6, as the code has it: [Error], [Failure] and [Warning] each append
    exactly one message, formatted from the format string prefixed with
    "Error: ", "Failure: " or "Warning: ", and set the status to
    [SetStatus] of the current status and their level; [Success] sets the
    status the same way and leaves [Messages] as it is. No call changes an
    existing message, the name, the children or another result. *)
Theorem report_messages (h : heap) (r : loc) res (format : string)
    (a : list arg) :
  h !! r = Some res ->
  let appended level prefix (call : loc -> string -> list arg -> heap -> option heap) :=
    exists h' res',
      call r format a h = Some h' /\ h' !! r = Some res' /\
      Messages res' = Messages res ++ [Sprintf (prefix +:+ format) a] /\
      length (Messages res') = S (length (Messages res)) /\
      (forall i, (i < length (Messages res))%nat ->
                 Messages res' !! i = Messages res !! i) /\
      ((forall f, Sprintf (prefix +:+ f) a = prefix +:+ Sprintf f a) ->
       exists msg, Messages res' = Messages res ++ [prefix +:+ msg]) /\
      Status_ res' = SetStatus (Status_ res) level /\
      Name res' = Name res /\ Checks res' = Checks res /\
      (forall l, l <> r -> h' !! l = h !! l) in
  appended Error "Error: "%string (Result_Error Sprintf) /\
  appended Failure "Failure: "%string (Result_Failure Sprintf) /\
  appended Warning "Warning: "%string (Result_Warning Sprintf) /\
  exists h' res',
    Result_Success r h = Some h' /\ h' !! r = Some res' /\
    Messages res' = Messages res /\
    Status_ res' = SetStatus (Status_ res) Success /\
    Name res' = Name res /\ Checks res' = Checks res /\
    (forall l, l <> r -> h' !! l = h !! l).
Proof.
  intros Hr.
  assert (forall level prefix,
    exists h' res',
      report Sprintf level prefix r format a h = Some h' /\
      h' !! r = Some res' /\
      Messages res' = Messages res ++ [Sprintf (prefix +:+ format) a] /\
      length (Messages res') = S (length (Messages res)) /\
      (forall i, (i < length (Messages res))%nat ->
                 Messages res' !! i = Messages res !! i) /\
      ((forall f, Sprintf (prefix +:+ f) a = prefix +:+ Sprintf f a) ->
       exists msg, Messages res' = Messages res ++ [prefix +:+ msg]) /\
      Status_ res' = SetStatus (Status_ res) level /\
      Name res' = Name res /\ Checks res' = Checks res /\
      (forall l, l <> r -> h' !! l = h !! l)) as Hrep.
  { intros level prefix. eexists _, _.
    split; [by apply report_spec |]. split; [apply lookup_insert_eq |].
    simpl. split; [done |].
    split; [rewrite length_app; simpl; lia |].
    split; [intros i Hi; by rewrite lookup_app_l |].
    split; [intros Hlit; eexists; by rewrite Hlit |].
    repeat split; try done. intros l Hl. by rewrite lookup_insert_ne. }
  split; [apply Hrep |]. split; [apply Hrep |]. split; [apply Hrep |].
  eexists _, _. split; [by apply Result_Success_spec |].
  split; [apply lookup_insert_eq |]. simpl.
  repeat split; try done. intros l Hl. by rewrite lookup_insert_ne.
Qed.

End ResultClaims.

(* ===================================================================== *)
(** * The status of a result over a whole program                         *)
(* ===================================================================== *)

Lemma max_severity_nonneg ls : Success <= max_severity ls.
Proof.
  unfold max_severity. induction ls as [|x ls IH]; simpl; [done | lia].
Qed.

Lemma max_severity_app ls1 ls2 :
  max_severity (ls1 ++ ls2) = Z.max (max_severity ls1) (max_severity ls2).
Proof.
  unfold max_severity. induction ls1 as [|x ls1 IH]; simpl.
  - pose proof (max_severity_nonneg ls2) as H. unfold max_severity in H. lia.
  - rewrite IH. lia.
Qed.

Section ProgramStatus.

Context {arg : Type}.
Variable Sprintf : string -> list arg -> string.

Lemma report_status level prefix r format a (h h' : heap) l :
  Success <= level ->
  statuses_nonneg h ->
  report Sprintf level prefix r format a h = Some h' ->
  statuses_nonneg h' /\
  status_at h' l =
    Z.max (status_at h l) (max_severity (if decide (r = l) then [level] else [])).
Proof.
  intros Hlevel Hnn Hrep. unfold report in Hrep.
  destruct (h !! r) as [res|] eqn:Hr; [| done]. simpl in Hrep.
  injection Hrep as <-. split.
  - intros k resk. destruct (decide (r = k)) as [->|Hne].
    + rewrite lookup_insert_eq. intros [= <-]. simpl.
      pose proof (Hnn _ _ Hr). rewrite SetStatus_max. lia.
    + rewrite lookup_insert_ne by done. apply Hnn.
  - unfold status_at. destruct (decide (r = l)) as [->|Hne].
    + rewrite lookup_insert_eq, Hr. simpl. rewrite SetStatus_max.
      unfold Success in *. lia.
    + rewrite lookup_insert_ne by done. simpl.
      destruct (h !! l) as [resl|] eqn:Hl; [| done].
      pose proof (Hnn _ _ Hl). unfold Success in *. lia.
Qed.

Lemma exec_op_status o (h h' : heap) l :
  statuses_nonneg h ->
  exec_op Sprintf o h = Some h' ->
  statuses_nonneg h' /\
  status_at h' l =
    Z.max (status_at h l)
          (max_severity (reported_level o l ++ attached_level o h l)).
Proof.
  intros Hnn Hex. destruct o as [name|r f a|r f a|r f a|r|r c]; simpl in Hex.
  - injection Hex as <-. split.
    + intros k resk. unfold MakeResult. simpl.
      destruct (decide (fresh (dom h) = k)) as [<-|Hne].
      * rewrite lookup_insert_eq. intros [= <-]. done.
      * rewrite lookup_insert_ne by done. apply Hnn.
    + unfold status_at. simpl.
      destruct (decide (fresh (dom h) = l)) as [<-|Hne].
      * rewrite lookup_insert_eq.
        pose proof (MakeResult_fresh name h) as Hf. simpl in Hf.
        rewrite Hf. done.
      * rewrite lookup_insert_ne by done.
        destruct (h !! l) as [resl|] eqn:Hl; [| done].
        pose proof (Hnn _ _ Hl). unfold Success in *. lia.
  - simpl. rewrite app_nil_r.
    eapply (report_status Error); [done | done | exact Hex].
  - simpl. rewrite app_nil_r.
    eapply (report_status Failure); [done | done | exact Hex].
  - simpl. rewrite app_nil_r.
    eapply (report_status Warning); [done | done | exact Hex].
  - simpl. rewrite app_nil_r. unfold Result_Success in Hex.
    destruct (h !! r) as [res|] eqn:Hr; [| done]. simpl in Hex.
    injection Hex as <-. pose proof (Hnn _ _ Hr) as Hres. split.
    + intros k resk. destruct (decide (r = k)) as [->|Hne].
      * rewrite lookup_insert_eq. intros [= <-]. simpl.
        rewrite SetStatus_max. lia.
      * rewrite lookup_insert_ne by done. apply Hnn.
    + unfold status_at. destruct (decide (r = l)) as [->|Hne].
      * rewrite lookup_insert_eq, Hr. simpl. rewrite SetStatus_max.
        unfold Success in *. lia.
      * rewrite lookup_insert_ne by done. simpl.
        destruct (h !! l) as [resl|] eqn:Hl; [| done].
        pose proof (Hnn _ _ Hl). unfold Success in *. lia.
  - simpl. destruct (h !! r) as [res|] eqn:Hr;
      [| unfold addCheck in Hex; rewrite Hr in Hex; done].
    destruct (Checks res) as [m|] eqn:Hm;
      [| unfold addCheck in Hex; rewrite Hr in Hex; simpl in Hex;
         rewrite Hm in Hex; done].
    destruct (h !! c) as [child|] eqn:Hc;
      [| unfold addCheck in Hex; rewrite Hr in Hex; simpl in Hex;
         rewrite Hm in Hex; simpl in Hex; rewrite Hc in Hex; done].
    rewrite (addCheck_spec r c h res m child Hr Hm Hc) in Hex.
    injection Hex as <-.
    pose proof (Hnn _ _ Hr) as Hres. pose proof (Hnn _ _ Hc) as Hch. split.
    + intros k resk. destruct (decide (r = k)) as [->|Hne].
      * rewrite lookup_insert_eq. intros [= <-]. simpl.
        rewrite SetStatus_max. lia.
      * rewrite lookup_insert_ne by done. apply Hnn.
    + unfold status_at. destruct (decide (r = l)) as [->|Hne].
      * rewrite lookup_insert_eq, Hr. simpl. rewrite SetStatus_max.
        unfold Success in *. lia.
      * rewrite lookup_insert_ne by done. simpl.
        destruct (h !! l) as [resl|] eqn:Hl; [| done].
        pose proof (Hnn _ _ Hl). unfold Success in *. lia.
Qed.

Lemma run_status ops : forall (h h' : heap) l,
  statuses_nonneg h ->
  run Sprintf ops h = Some h' ->
  status_at h' l = Z.max (status_at h l) (max_severity (history Sprintf ops h l)).
Proof.
  induction ops as [|o ops IH]; intros h h' l Hnn Hrun; simpl in *.
  - injection Hrun as <-. unfold status_at.
    destruct (h !! l) as [res|] eqn:Hl; [| done].
    pose proof (Hnn _ _ Hl). unfold max_severity. simpl. lia.
  - destruct (exec_op Sprintf o h) as [h1|] eqn:Hex; [| done]. simpl in Hrun.
    destruct (exec_op_status o h h1 l Hnn Hex) as [Hnn1 Hst].
    rewrite (IH h1 h' l Hnn1 Hrun), Hst.
    rewrite app_assoc, !max_severity_app. lia.
Qed.

(** C2, as the code has it: after any program that runs from the empty
    store, the status of every result is the most severe of the levels
    reported directly on it and of the statuses its children had at the
    moment each was attached, whether or not a later attachment replaced
    the child or a later report changed it. *)
Theorem status_is_max_of_history (ops : list op) (h : heap) (l : loc) res :
  run Sprintf ops ∅ = Some h -> h !! l = Some res ->
  Status_ res = max_severity (history Sprintf ops ∅ l).
Proof.
  intros Hrun Hl.
  assert (statuses_nonneg (∅ : heap)) as Hnn.
  { intros k resk. by rewrite lookup_empty. }
  pose proof (run_status ops ∅ h l Hnn Hrun) as Hst.
  unfold status_at in Hst. rewrite Hl, lookup_empty in Hst.
  pose proof (max_severity_nonneg (history Sprintf ops ∅ l)).
  unfold Success in *. lia.
Qed.

End ProgramStatus.

(* ===================================================================== *)
(** * The result model on concrete programs                               *)
(* ===================================================================== *)

Lemma overwrite_program_runs :
  run Sprintf_verbatim overwrite_program ∅ = Some overwrite_final.
Proof. vm_compute. reflexivity. Qed.

(** After the failed check has been replaced by a successful one of the
    same name, the parent is still at Error although it holds a single
    child, at Success, and nothing was reported on the parent itself. *)
Lemma overwritten_child_still_counts :
  ~ status_is_max_of_reports_and_children Sprintf_verbatim overwrite_program.
Proof.
  intros Hclaim.
  specialize (Hclaim overwrite_final overwrite_program_runs 1%positive).
  destruct (overwrite_final !! 1%positive) as [res|] eqn:Hres;
    [| vm_compute in Hres; discriminate].
  specialize (Hclaim res Hres).
  vm_compute in Hres. injection Hres as <-.
  vm_compute in Hclaim. discriminate.
Qed.

Lemma status_is_max_of_history_witness :
  Status_ (mkResult "example.com" Error []
             (Some {[ "starttls"%string := 3%positive ]})) =
  max_severity (history Sprintf_verbatim overwrite_program ∅ 1%positive).
Proof.
  apply (status_is_max_of_history Sprintf_verbatim overwrite_program
           overwrite_final 1%positive); vm_compute; reflexivity.
Defined.

(** [Success] called on a result just made leaves it without a message. *)
Lemma Success_appends_no_message : ~ appends_one_message Result_Success.
Proof.
  intros Hclaim.
  assert (snd (MakeResult "starttls" ∅) !! 1%positive = Some passed_check)
    as Hmade by (vm_compute; reflexivity).
  destruct (Hclaim _ _ _ Hmade) as (h' & res' & msg & Hcall & Hres & Hmsg).
  vm_compute in Hcall. injection Hcall as <-.
  vm_compute in Hres. injection Hres as <-.
  simpl in Hmsg. discriminate.
Qed.

Lemma three_results_1 : three_results !! 1%positive = Some domain_result.
Proof. vm_compute. reflexivity. Qed.

Lemma three_results_2 : three_results !! 2%positive = Some failed_check.
Proof. vm_compute. reflexivity. Qed.

Lemma three_results_3 : three_results !! 3%positive = Some passed_check.
Proof. vm_compute. reflexivity. Qed.

Lemma report_messages_witness :
  exists h' res',
    Result_Warning Sprintf_verbatim 2%positive "old TLS version" []
      three_results = Some h' /\
    h' !! 2%positive = Some res' /\
    Messages res' =
      ["Error: no STARTTLS support"; "Warning: old TLS version"]%string /\
    Status_ res' = Error.
Proof.
  destruct (report_messages Sprintf_verbatim three_results 2%positive
              failed_check "old TLS version" [] three_results_2)
    as (_ & _ & (h' & res' & Hcall & Hres & Hmsg & _ & _ & _ & Hst & _) & _).
  exists h', res'. repeat split; assumption.
Defined.

Lemma addCheck_escalates_witness :
  exists h' res',
    addCheck 1%positive 2%positive three_results = Some h' /\
    h' !! 1%positive = Some res' /\
    Checks res' = Some {[ "starttls"%string := 2%positive ]} /\
    Status_ res' = Error /\
    exists g' p',
      addCheck 1%positive 3%positive h' = Some g' /\
      g' !! 1%positive = Some p' /\
      Checks p' = Some {[ "starttls"%string := 3%positive ]} /\
      Status_ p' = Error.
Proof.
  destruct (addCheck_escalates three_results 1%positive 2%positive
              domain_result ∅ failed_check
              three_results_1 eq_refl three_results_2)
    as (h' & res' & Hadd & Hres & Hchecks & _ & _ & _ & _ & _ & _ & Hother
        & Hscenario).
  destruct (Hscenario eq_refl eq_refl) as [Herr Hnext].
  destruct (Hnext h' res' (<[ "starttls"%string := 2%positive ]> ∅) 3%positive
              passed_check Hres eq_refl Hchecks)
    as (g' & p' & Hadd2 & Hp' & Hchecks2 & Hst2).
  { rewrite Hother by discriminate. exact three_results_3. }
  { reflexivity. }
  exists h', res'. split; [exact Hadd |]. split; [exact Hres |].
  split; [exact Hchecks |]. split; [exact Herr |].
  exists g', p'. split; [exact Hadd2 |]. split; [exact Hp' |].
  split; [| exact Hst2].
  rewrite Hchecks2, insert_insert_eq. reflexivity.
Defined.

Lemma subcheckSucceeded_iff_witness :
  subcheckSucceeded 1%positive "starttls" three_results = Some false /\
  forall h', addCheck 1%positive 2%positive three_results = Some h' ->
             subcheckSucceeded 1%positive "starttls" h' = Some false.
Proof.
  destruct (subcheckSucceeded_iff three_results 1%positive "starttls"
              domain_result three_results_1)
    as (_ & Hnone & _ & _ & Hattached).
  split.
  - apply Hnone. reflexivity.
  - intros h' Hadd. exact (Hattached 2%positive failed_check h'
                             three_results_2 Hadd).
Defined.

(* ===================================================================== *)
(** * Go's [int]: arithmetic facts                                        *)
(* ===================================================================== *)

Ltac go_int_unfold :=
  unfold GoInt.incr, GoInt.add, GoInt.wrap, GoInt.in_range, GoInt.modulus,
    GoInt.max_int, GoInt.min_int, GoInt.bits in *;
  change (2 ^ (64 - 1)) with 9223372036854775808 in *;
  change (2 ^ 64) with 18446744073709551616 in *.

Lemma wrap_in_range z : GoInt.in_range z -> GoInt.wrap z = z.
Proof. intros H. go_int_unfold. rewrite Z.mod_small by lia. lia. Qed.

Lemma wrap_range z : GoInt.in_range (GoInt.wrap z).
Proof.
  go_int_unfold.
  match goal with
  | |- context [?x mod ?m] => pose proof (Z.mod_pos_bound x m)
  end.
  lia.
Qed.

Lemma wrap_wrap_add x y : GoInt.wrap (GoInt.wrap x + y) = GoInt.wrap (x + y).
Proof.
  go_int_unfold. f_equal.
  match goal with
  | |- (?u mod ?m + ?k + y - ?k) mod ?m = _ =>
      replace (u mod m + k + y - k) with (u mod m + y) by lia
  end.
  rewrite Zplus_mod_idemp_l. f_equal. lia.
Qed.

Lemma incr_below_max x :
  GoInt.min_int <= x -> x < GoInt.max_int -> GoInt.incr x = x + 1.
Proof.
  intros Hlo Hhi. unfold GoInt.incr, GoInt.add. apply wrap_in_range.
  go_int_unfold. lia.
Qed.

Lemma add_in_range x y : GoInt.in_range (x + y) -> GoInt.add x y = x + y.
Proof. apply wrap_in_range. Qed.

Lemma len_app_one {A} (l : list A) (x : A) :
  GoInt.len (l ++ [x]) = GoInt.len l + 1.
Proof. unfold GoInt.len. rewrite length_app. simpl. lia. Qed.

(* ===================================================================== *)
(** * Properties of the aggregated statistics                             *)
(* ===================================================================== *)

(** The cases of [HandleDomain], one equation each. *)
Lemma HandleDomain_no_hosts a r :
  HostnameResults r = [] -> HandleDomain a r = incr_Attempted a.
Proof. intros H. unfold HandleDomain, HandleDomain_log. rewrite H. done. Qed.

Lemma HandleDomain_hosts a r :
  HostnameResults r <> [] ->
  HandleDomain a r =
    let a2 := incr_WithMXs (incr_Attempted a) in
    match MTASTSResult_ r with
    | Some policy =>
        if String.eqb (Mode policy) "enforce" then count_enforce (Domain r) a2
        else if String.eqb (Mode policy) "testing"
             then count_testing (Domain r) a2
             else a2
    | None => a2
    end.
Proof.
  intros H. unfold HandleDomain, HandleDomain_log.
  destruct (HostnameResults r) as [|x l]; [done |].
  unfold GoInt.len. simpl length.
  destruct (Z.eqb_spec (Z.of_nat (S (length l))) 0) as [Hz|_]; [lia |].
  destruct (MTASTSResult_ r) as [policy|]; [| done].
  destruct (String.eqb (Mode policy) "enforce"); [done |].
  destruct (String.eqb (Mode policy) "testing"); done.
Qed.

(** C4: [HandleDomain] always increments [Attempted] (Go's [++], which is
    [+ 1] below the largest [int]) and leaves [Time] and [Source] alone.
    With no host results nothing else changes. Otherwise [WithMXs] is
    incremented, and a policy result in mode "enforce" increments
    [MTASTSEnforce] and appends the domain to the enforce list, one in mode
    "testing" does the same for the testing counter and list, and any other
    mode or no policy result changes neither. A fresh aggregate fed a
    result without hosts, an "enforce" result and a "testing" result ends
    with Attempted 3, WithMXs 2, one domain in each bucket and
    [PercentMTASTS] equal to 100. *)
Theorem HandleDomain_counts (a : AggregatedScan) (r : DomainResult) :
  let a' := HandleDomain a r in
  let buckets_unchanged :=
    MTASTSEnforce a' = MTASTSEnforce a /\
    MTASTSEnforceList a' = MTASTSEnforceList a /\
    MTASTSTesting a' = MTASTSTesting a /\
    MTASTSTestingList a' = MTASTSTestingList a in
  Attempted a' = GoInt.incr (Attempted a) /\
  (GoInt.min_int <= Attempted a < GoInt.max_int ->
   Attempted a' = Attempted a + 1) /\
  Time a' = Time a /\ Source a' = Source a /\
  (GoInt.len (HostnameResults r) = 0 ->
   WithMXs a' = WithMXs a /\ buckets_unchanged) /\
  (GoInt.len (HostnameResults r) <> 0 ->
   WithMXs a' = GoInt.incr (WithMXs a) /\
   (GoInt.min_int <= WithMXs a < GoInt.max_int ->
    WithMXs a' = WithMXs a + 1) /\
   (forall policy, MTASTSResult_ r = Some policy ->
                   Mode policy = "enforce"%string ->
      MTASTSEnforce a' = GoInt.incr (MTASTSEnforce a) /\
      MTASTSEnforceList a' = MTASTSEnforceList a ++ [Domain r] /\
      MTASTSTesting a' = MTASTSTesting a /\
      MTASTSTestingList a' = MTASTSTestingList a) /\
   (forall policy, MTASTSResult_ r = Some policy ->
                   Mode policy = "testing"%string ->
      MTASTSTesting a' = GoInt.incr (MTASTSTesting a) /\
      MTASTSTestingList a' = MTASTSTestingList a ++ [Domain r] /\
      MTASTSEnforce a' = MTASTSEnforce a /\
      MTASTSEnforceList a' = MTASTSEnforceList a) /\
   (forall policy, MTASTSResult_ r = Some policy ->
                   Mode policy <> "enforce"%string ->
                   Mode policy <> "testing"%string -> buckets_unchanged) /\
   (MTASTSResult_ r = None -> buckets_unchanged)) /\
  (forall r1 r2 r3 p2 p3,
      HostnameResults r1 = [] ->
      HostnameResults r2 <> [] -> MTASTSResult_ r2 = Some p2 ->
      Mode p2 = "enforce"%string ->
      HostnameResults r3 <> [] -> MTASTSResult_ r3 = Some p3 ->
      Mode p3 = "testing"%string ->
      let final := handle_all zero_scan [r1; r2; r3] in
      Attempted final = 3 /\ WithMXs final = 2 /\
      MTASTSEnforce final = 1 /\ MTASTSTesting final = 1 /\
      MTASTSEnforceList final = [Domain r2] /\
      MTASTSTestingList final = [Domain r3] /\
      PercentMTASTS final = 100%float).
Proof.
  intros a' buckets_unchanged. subst a' buckets_unchanged.
  assert (Attempted (HandleDomain a r) = GoInt.incr (Attempted a)) as HA.
  { destruct (HostnameResults r) as [|x l] eqn:Hh.
    - by rewrite HandleDomain_no_hosts.
    - rewrite HandleDomain_hosts by (rewrite Hh; done). simpl.
      destruct (MTASTSResult_ r) as [policy|]; [| done].
      destruct (String.eqb (Mode policy) "enforce"); [done |].
      destruct (String.eqb (Mode policy) "testing"); done. }
  split; [exact HA |].
  split; [intros [Hlo Hhi]; rewrite HA; by apply incr_below_max |].
  split.
  { destruct (HostnameResults r) as [|x l] eqn:Hh.
    - by rewrite HandleDomain_no_hosts.
    - rewrite HandleDomain_hosts by (rewrite Hh; done). simpl.
      destruct (MTASTSResult_ r) as [policy|]; [| done].
      destruct (String.eqb (Mode policy) "enforce"); [done |].
      destruct (String.eqb (Mode policy) "testing"); done. }
  split.
  { destruct (HostnameResults r) as [|x l] eqn:Hh.
    - by rewrite HandleDomain_no_hosts.
    - rewrite HandleDomain_hosts by (rewrite Hh; done). simpl.
      destruct (MTASTSResult_ r) as [policy|]; [| done].
      destruct (String.eqb (Mode policy) "enforce"); [done |].
      destruct (String.eqb (Mode policy) "testing"); done. }
  split.
  { intros Hlen. assert (HostnameResults r = []) as Hh.
    { destruct (HostnameResults r); [done |]. unfold GoInt.len in Hlen.
      simpl in Hlen. lia. }
    rewrite HandleDomain_no_hosts by done. done. }
  split.
  { intros Hlen. assert (HostnameResults r <> []) as Hh.
    { intros Hh. rewrite Hh in Hlen. done. }
    rewrite HandleDomain_hosts by done. simpl.
    assert (WithMXs
              match MTASTSResult_ r with
              | Some policy =>
                  if String.eqb (Mode policy) "enforce"
                  then count_enforce (Domain r)
                         (incr_WithMXs (incr_Attempted a))
                  else if String.eqb (Mode policy) "testing"
                       then count_testing (Domain r)
                              (incr_WithMXs (incr_Attempted a))
                       else incr_WithMXs (incr_Attempted a)
              | None => incr_WithMXs (incr_Attempted a)
              end = GoInt.incr (WithMXs a)) as HW.
    { destruct (MTASTSResult_ r) as [policy|]; [| done].
      destruct (String.eqb (Mode policy) "enforce"); [done |].
      destruct (String.eqb (Mode policy) "testing"); done. }
    split; [exact HW |].
    split; [intros [Hlo Hhi]; rewrite HW; by apply incr_below_max |].
    split.
    { intros policy -> Hmode. rewrite Hmode. simpl. done. }
    split.
    { intros policy -> Hmode. rewrite Hmode. simpl. done. }
    split.
    { intros policy -> Hne Hnt.
      destruct (String.eqb_spec (Mode policy) "enforce"); [done |].
      destruct (String.eqb_spec (Mode policy) "testing"); done. }
    intros ->. done. }
  intros r1 r2 r3 p2 p3 H1 H2 Hp2 Hm2 H3 Hp3 Hm3. unfold handle_all. simpl.
  rewrite (HandleDomain_no_hosts _ r1 H1).
  rewrite (HandleDomain_hosts _ r2 H2), Hp2, Hm2. simpl.
  rewrite (HandleDomain_hosts _ r3 H3), Hp3, Hm3. simpl.
  repeat split; vm_compute; reflexivity.
Qed.

(** C7: [TotalMTASTS] is the sum, in Go's [int], of [MTASTSTesting] and
    [MTASTSEnforce]; [PercentMTASTS] is 0 when [WithMXs] is 0, so also on
    an aggregate that has seen no domain, and otherwise it is
    [100 * float64(total) / float64(WithMXs)] in float64 arithmetic: a
    percentage, 25 for one domain in four and 100 for two in two. *)
Theorem TotalMTASTS_PercentMTASTS (a : AggregatedScan) :
  TotalMTASTS a = GoInt.add (MTASTSTesting a) (MTASTSEnforce a) /\
  (GoInt.in_range (MTASTSTesting a + MTASTSEnforce a) ->
   TotalMTASTS a = MTASTSTesting a + MTASTSEnforce a) /\
  (WithMXs a = 0 -> PercentMTASTS a = 0%float) /\
  PercentMTASTS zero_scan = 0%float /\
  (WithMXs a <> 0 ->
   PercentMTASTS a =
     (100 * GoInt.float64 (TotalMTASTS a) / GoInt.float64 (WithMXs a))%float) /\
  (forall t s n tl el,
      PercentMTASTS (mkAggregatedScan t s n 4 1 tl 0 el) = 25%float /\
      PercentMTASTS (mkAggregatedScan t s n 2 1 tl 1 el) = 100%float).
Proof.
  split; [reflexivity |].
  split; [intros Hr; by apply add_in_range |].
  split; [intros Hw; unfold PercentMTASTS; rewrite Hw; reflexivity |].
  split; [reflexivity |].
  split.
  { intros Hw. unfold PercentMTASTS.
    destruct (Z.eqb_spec (WithMXs a) 0); [done | reflexivity]. }
  intros t s n tl el. split; vm_compute; reflexivity.
Qed.

(** ** The aggregate over a whole run *)

Lemma HandleDomain_counting a r :
  counting a -> Attempted a < GoInt.max_int ->
  counting (HandleDomain a r) /\
  Attempted (HandleDomain a r) = Attempted a + 1.
Proof.
  intros [(HEL & HTL & Hsum & HW) [HE HT]] HA.
  assert (GoInt.min_int <= 0) as Hmin by (go_int_unfold; lia).
  destruct (HostnameResults r) as [|x l] eqn:Hh.
  - rewrite HandleDomain_no_hosts by done.
    unfold counting, sink_invariant. simpl.
    rewrite incr_below_max by lia. lia.
  - rewrite HandleDomain_hosts by (rewrite Hh; done). simpl.
    destruct (MTASTSResult_ r) as [policy|].
    + destruct (String.eqb (Mode policy) "enforce");
        [| destruct (String.eqb (Mode policy) "testing")];
        unfold counting, sink_invariant; simpl;
        rewrite ?len_app_one, !incr_below_max by lia; lia.
    + unfold counting, sink_invariant. simpl.
      rewrite !incr_below_max by lia. lia.
Qed.




(** ** Counters past the largest [int] *)



(** ** The percentage in float64 *)

Lemma handle_all_enforce n : forall a,
  counting a -> Attempted a + Z.of_nat n <= GoInt.max_int ->
  let a' := handle_all a (replicate n enforce_result) in
  WithMXs a' = WithMXs a + Z.of_nat n /\
  MTASTSEnforce a' = MTASTSEnforce a + Z.of_nat n /\
  MTASTSTesting a' = MTASTSTesting a.
Proof.
  induction n as [|n IH]; intros a Hc Hlen.
  - cbn [replicate handle_all foldl]. lia.
  - change (replicate (S n) enforce_result)
      with (enforce_result :: replicate n enforce_result).
    unfold handle_all. cbn [foldl].
    fold (handle_all (HandleDomain a enforce_result)
            (replicate n enforce_result)).
    destruct (HandleDomain_counting a enforce_result Hc) as [Hc' HA];
      [lia |].
    destruct (IH (HandleDomain a enforce_result) Hc') as (HW & HE & HT);
      [lia |].
    rewrite HW, HE, HT.
    destruct Hc as [(_ & _ & Hsum & HWA) [HE0 HT0]].
    assert (GoInt.min_int <= 0) as Hmin by (go_int_unfold; lia).
    rewrite HandleDomain_hosts by done. simpl.
    rewrite !incr_below_max by lia. lia.
Qed.

(** With every counter at 3693130703675757829, fewer than 2^63, the
    rounded product 100 * float64(total) is above the exact one, and the
    quotient rounds to the float64 next above 100. *)
Lemma PercentMTASTS_rounds_above_100 :
  PrimFloat.ltb 100%float
    (PercentMTASTS
       (handle_all zero_scan
          (replicate (Z.to_nat 3693130703675757829) enforce_result))) = true.
Proof.
  assert (counting zero_scan) as H0.
  { unfold counting, sink_invariant. simpl. unfold GoInt.len. simpl. lia. }
  destruct (handle_all_enforce (Z.to_nat 3693130703675757829) zero_scan H0)
    as (HW & HE & HT).
  { rewrite Z2Nat.id by lia. vm_compute. discriminate. }
  unfold PercentMTASTS, TotalMTASTS. rewrite HW, HE, HT.
  rewrite Z2Nat.id by lia. vm_compute. reflexivity.
Qed.

(* ===================================================================== *)
(** * Properties of the producer                                          *)
(* ===================================================================== *)

Lemma index_in_range data i d :
  index data i = Some d -> 0 <= i < GoInt.len data.
Proof.
  unfold index.
  destruct (Z.leb_spec 0 i), (Z.ltb_spec i (GoInt.len data)); simpl;
    intros Hd; try discriminate; lia.
Qed.

Lemma index_out_of_range data i :
  GoInt.len data <= i -> index data i = None.
Proof.
  intros H. unfold index.
  destruct (Z.ltb_spec i (GoInt.len data)); [lia |].
  by rewrite andb_false_r.
Qed.

(** C9: what the producer does with one row. A row of length zero
    contributes nothing, and a row with more than [domainColumn] fields
    contributes the field at that column. A row that is not empty but has
    at most [domainColumn] fields is not skipped: the index expression
    panics, nothing of that row or of the rows after it is enqueued, and
    the run of [CheckCSV] dies at the producer's first move. *)
Theorem producer_rows (domainColumn : Z) (rest : list read_result) :
  enqueue domainColumn (RRow [] :: rest) = enqueue domainColumn rest /\
  (forall data d,
      index data domainColumn = Some d ->
      0 <= domainColumn < GoInt.len data /\
      enqueue domainColumn (RRow data :: rest) =
        (d :: fst (enqueue domainColumn rest),
         snd (enqueue domainColumn rest))) /\
  (forall data,
      0 < GoInt.len data -> GoInt.len data <= domainColumn ->
      enqueue domainColumn (RRow data :: rest) =
        ([], Some PanicIndexOutOfRange)) /\
  enqueue 1 [RRow ["example.com"%string];
             RRow ["2"%string; "example.org"%string]] =
    ([], Some PanicIndexOutOfRange) /\
  enqueue 1 [RRow []; RRow ["2"%string; "example.org"%string]] =
    (["example.org"%string], None) /\
  (forall (handler_state : Type)
          (handle : handler_state -> DomainResult -> handler_state)
          (CheckDomain : string -> DomainResult) (poolSize : nat)
          (h0 : handler_state),
      fire handle CheckDomain 1 poolSize AProducer
        (start poolSize
           [RRow ["example.com"%string];
            RRow ["2"%string; "example.org"%string]] h0) =
        Some (Crashed PanicIndexOutOfRange)).
Proof.
  split; [reflexivity |]. split.
  { intros data d Hd. split; [by eapply index_in_range |].
    pose proof (index_in_range _ _ _ Hd) as Hr.
    cbn [enqueue]. destruct (Z.gtb_spec (GoInt.len data) 0); [| lia].
    rewrite Hd. by destruct (enqueue domainColumn rest). }
  split.
  { intros data Hpos Hshort. cbn [enqueue].
    destruct (Z.gtb_spec (GoInt.len data) 0); [| lia].
    by rewrite index_out_of_range. }
  split; [reflexivity |]. split; reflexivity.
Qed.

(** A plain list of identifiers, one per row, read at column 0. *)
Lemma enqueue_identifiers (ids : list string) :
  enqueue 0 ((fun d => RRow [d]) <$> ids) = (ids, None).
Proof.
  induction ids as [|d ids IH]; [reflexivity |].
  rewrite fmap_cons. cbn [enqueue]. rewrite IH. reflexivity.
Qed.

(* ===================================================================== *)
(** * Properties of the pipeline                                          *)
(* ===================================================================== *)

(** ** Replacing one element of a list *)
Section ListUpdate.

Context {A B : Type}.

Lemma insert_middle (l : list A) i x y :
  l !! i = Some x ->
  l = take i l ++ x :: drop (S i) l /\
  <[i := y]> l = take i l ++ y :: drop (S i) l.
Proof.
  intros Hi. split.
  - symmetry. by apply take_drop_middle.
  - apply insert_take_drop. by eapply lookup_lt_Some.
Qed.

Lemma sum_list_fmap_insert (f : A -> nat) (l : list A) i x y :
  l !! i = Some x ->
  (sum_list (f <$> <[i := y]> l) + f x = sum_list (f <$> l) + f y)%nat.
Proof.
  intros Hi. destruct (insert_middle l i x y Hi) as [Hl Hins].
  rewrite Hins. rewrite Hl at 3.
  rewrite !fmap_app, !fmap_cons, !sum_list_with_app. simpl. lia.
Qed.

Lemma bind_insert_perm (g : A -> list B) (l : list A) i x y :
  l !! i = Some x ->
  (<[i := y]> l ≫= g) ++ g x ≡ₚ (l ≫= g) ++ g y.
Proof.
  intros Hi. destruct (insert_middle l i x y Hi) as [Hl Hins].
  rewrite Hins. rewrite Hl at 3.
  rewrite !bind_app, !bind_cons.
  generalize (take i l ≫= g) (drop (S i) l ≫= g) (g x) (g y).
  intros before after gx gy.
  rewrite <- !app_assoc. apply Permutation_app_head.
  rewrite (Permutation_app_comm gy), <- app_assoc.
  rewrite (app_assoc gx after gy), (Permutation_app_comm gx after).
  by rewrite <- app_assoc.
Qed.

End ListUpdate.

Section PipelineProperties.

Context {handler_state : Type}.
Variable handle : handler_state -> DomainResult -> handler_state.
Variable CheckDomain : string -> DomainResult.
Variable domainColumn : Z.
Variable poolSize : nat.

Local Abbreviation act := (fire handle CheckDomain domainColumn poolSize).
Local Abbreviation next := (step handle CheckDomain domainColumn poolSize).
Local Abbreviation inv := (pipeline_inv handle CheckDomain domainColumn poolSize).
Local Abbreviation cinv := (config_inv handle CheckDomain domainColumn poolSize).

(** ** Every step lowers the measure *)

Lemma weight_set_worker i w w' (s : @pipeline handler_state) :
  workers s !! i = Some w ->
  (weight (set_worker i w' s) + worker_weight w =
   weight s + worker_weight w')%nat.
Proof.
  intros Hi. unfold weight. simpl.
  pose proof (sum_list_fmap_insert worker_weight (workers s) i w w' Hi). lia.
Qed.

Lemma fire_decreases a (s : @pipeline handler_state) c' :
  act a s = Some c' -> (measure c' < measure (Running s))%nat.
Proof.
  destruct a as [|i|i|i|i|i| |]; simpl; intros Hfire.
  - destruct (producer s) eqn:Hp; try discriminate.
    destruct (reader s) as [|[data|] rest] eqn:Hrd.
    + injection Hfire as <-. simpl. unfold weight. simpl. rewrite Hp, Hrd.
      simpl. lia.
    + destruct (GoInt.len data >? 0).
      * destruct (index data domainColumn); injection Hfire as <-; simpl;
          [| lia]. unfold weight. simpl. rewrite Hp, Hrd. simpl. lia.
      * injection Hfire as <-. simpl. unfold weight. simpl.
        rewrite Hp, Hrd. simpl. lia.
    + injection Hfire as <-. simpl. lia.
  - destruct (producer s) eqn:Hp; try discriminate.
    destruct (workers s !! i) as [[| | | |]|] eqn:Hi; try discriminate.
    injection Hfire as <-. simpl.
    pose proof (weight_set_worker i WRecv (WCheck d)
                  (set_producer (reader s) PRead (work_closed s) s) Hi) as Hw.
    unfold weight in *. simpl in *. rewrite Hp. simpl. lia.
  - destruct (workers s !! i) as [[| | | |]|] eqn:Hi; try discriminate.
    injection Hfire as <-. simpl.
    pose proof (weight_set_worker i (WCheck domain)
                  (WSend (CheckDomain domain)) s Hi) as Hw.
    simpl in Hw. lia.
  - destruct (workers s !! i) as [[| | | |]|] eqn:Hi; try discriminate.
    destruct (results_closed s); [injection Hfire as <-; simpl; lia |].
    destruct (consumer s); try discriminate.
    injection Hfire as <-. simpl.
    pose proof (weight_set_worker i (WSend r) WRecv (deliver handle r s) Hi)
      as Hw.
    unfold weight in *. simpl in *. lia.
  - destruct (workers s !! i) as [[| | | |]|] eqn:Hi; try discriminate.
    destruct (work_closed s); try discriminate.
    injection Hfire as <-. simpl.
    pose proof (weight_set_worker i WRecv WSignal s Hi) as Hw.
    simpl in Hw. lia.
  - destruct (workers s !! i) as [[| | | |]|] eqn:Hi; try discriminate.
    destruct (supervisor s) as [k|] eqn:Hs; try discriminate.
    destruct (decide (k < poolSize)%nat); try discriminate.
    injection Hfire as <-. simpl.
    pose proof (weight_set_worker i WSignal WExit
                  (set_supervisor (SWait (S k)) s) Hi) as Hw.
    unfold weight in *. simpl in *. rewrite Hs. simpl. lia.
  - destruct (supervisor s) as [k|] eqn:Hs; try discriminate.
    destruct (decide (k < poolSize)%nat); try discriminate.
    destruct (results_closed s); injection Hfire as <-; simpl; [lia |].
    unfold weight. simpl. rewrite Hs. simpl. lia.
  - destruct (consumer s) eqn:Hc; try discriminate.
    destruct (results_closed s); try discriminate.
    injection Hfire as <-. simpl. unfold weight. simpl. rewrite Hc.
    simpl. lia.
Qed.

Lemma step_decreases c c' : next c c' -> (measure c' < measure c)%nat.
Proof.
  destruct c as [s|]; simpl; [| done].
  intros [a Hfire]. by eapply fire_decreases.
Qed.

(** ** Counting the workers that have finished *)

Lemma exited_count_cons w ws :
  exited_count (w :: ws) = (exited_weight w + exited_count ws)%nat.
Proof. reflexivity. Qed.

Lemma exited_count_app ws1 ws2 :
  exited_count (ws1 ++ ws2) = (exited_count ws1 + exited_count ws2)%nat.
Proof. unfold exited_count. by rewrite fmap_app, sum_list_with_app. Qed.

Lemma exited_count_le ws : (exited_count ws <= length ws)%nat.
Proof.
  induction ws as [|w ws IH]; [done |].
  rewrite exited_count_cons. cbn [length].
  unfold exited_weight. destruct (exited w); lia.
Qed.

Lemma exited_count_lt ws i w :
  ws !! i = Some w -> exited w = false ->
  (exited_count ws < length ws)%nat.
Proof.
  intros Hi Hw. destruct (insert_middle ws i w w Hi) as [Hl _].
  rewrite Hl, exited_count_app, exited_count_cons, length_app.
  cbn [length]. unfold exited_weight. rewrite Hw.
  pose proof (exited_count_le (take i ws)).
  pose proof (exited_count_le (drop (S i) ws)). lia.
Qed.

Lemma exited_count_all ws :
  exited_count ws = length ws -> Forall (fun w => w = WExit) ws.
Proof.
  induction ws as [|w ws IH]; [constructor |].
  rewrite exited_count_cons. cbn [length]. intros Hc.
  pose proof (exited_count_le ws).
  unfold exited_weight in Hc.
  destruct w; cbn [exited] in Hc; try lia.
  constructor; [done |]. apply IH. lia.
Qed.

Lemma exited_count_insert ws i w w' :
  ws !! i = Some w ->
  (exited_count (<[i := w']> ws) + exited_weight w =
   exited_count ws + exited_weight w')%nat.
Proof. apply sum_list_fmap_insert. Qed.

(** ** The invariant holds at the start and is kept by every step *)

Ltac open_inv H :=
  destruct H as (Hlen & Hok & Hperm & Hfold & Hwc & Hdone & Hwork & Hsup
                 & Hret).

Ltac fields :=
  cbn [reader producer work_closed workers supervisor results_closed closes
       consumer handler delivered set_producer set_worker set_supervisor
       close_results deliver set_consumer] in *.

Lemma start_inv rows h0 :
  snd (enqueue domainColumn rows) = None ->
  inv (fst (enqueue domainColumn rows)) h0 (start poolSize rows h0).
Proof.
  intros Hok. unfold pipeline_inv, start, supervisor_inv. fields.
  split; [apply length_replicate |]. split; [exact Hok |].
  split.
  { assert (replicate poolSize WRecv ≫= holding CheckDomain = []) as ->.
    { induction poolSize as [|n IH]; [done |]. exact IH. }
    done. }
  split; [done |]. split; [done |]. split; [done |].
  split.
  { intros _. apply Forall_replicate. exact I. }
  split; [| done].
  split; [| done].
  induction poolSize as [|n IH]; [done |]. exact IH.
Qed.

Lemma fire_producer_inv ids h0 (s : @pipeline handler_state) c' :
  inv ids h0 s -> act AProducer s = Some c' -> cinv ids h0 c'.
Proof.
  intros Hinv Hfire. open_inv Hinv. cbn [fire] in Hfire.
  destruct (producer s) eqn:Hp; try discriminate.
  assert (work_closed s = false) as Hopen.
  { destruct (work_closed s); [| done].
    destruct Hwc as [Hwc _]. specialize (Hwc eq_refl). discriminate. }
  destruct (reader s) as [|[data|] rest] eqn:Hrd.
  - injection Hfire as <-. unfold config_inv, pipeline_inv, supervisor_inv.
    fields. cbn [sending enqueue fst snd app] in *.
    split; [done |]. split; [done |]. split; [exact Hperm |].
    split; [done |]. split; [done |]. split; [done |].
    split; [done |]. split; [exact Hsup | exact Hret].
  - cbn [enqueue] in Hok, Hperm.
    destruct (GoInt.len data >? 0).
    + destruct (index data domainColumn) as [d|]; [| discriminate Hok].
      destruct (enqueue domainColumn rest) as [ds e] eqn:Hrest.
      injection Hfire as <-. unfold config_inv, pipeline_inv, supervisor_inv.
      fields. rewrite Hrest. cbn [sending fst snd app] in *.
      split; [done |]. split; [done |]. split; [exact Hperm |].
      split; [done |]. split; [by rewrite Hopen |]. split; [done |].
      split; [done |]. split; [exact Hsup | exact Hret].
    + injection Hfire as <-. unfold config_inv, pipeline_inv, supervisor_inv.
      fields. cbn [sending fst snd app] in *.
      split; [done |]. split; [done |]. split; [exact Hperm |].
      split; [done |]. split; [by rewrite Hopen |]. split; [done |].
      split; [done |]. split; [exact Hsup | exact Hret].
  - cbn [enqueue] in Hok. discriminate Hok.
Qed.

Lemma supervisor_inv_set_worker (s : @pipeline handler_state) i w w' :
  workers s !! i = Some w -> exited w = false -> exited w' = false ->
  supervisor_inv s -> supervisor_inv (set_worker i w' s).
Proof.
  intros Hi Hw Hw'. unfold supervisor_inv. fields.
  destruct (supervisor s) as [k|].
  - intros (Hk & Hrc & Hcl). split; [| done].
    pose proof (exited_count_insert (workers s) i w w' Hi) as Hc.
    unfold exited_weight in Hc. rewrite Hw, Hw' in Hc. lia.
  - intros (Hall & _). pose proof (Forall_lookup_1 _ _ _ _ Hall Hi) as ->.
    discriminate.
Qed.

Lemma results_open_while_working (s : @pipeline handler_state) i w :
  workers s !! i = Some w -> exited w = false ->
  supervisor_inv s -> results_closed s = false.
Proof.
  intros Hi Hw. unfold supervisor_inv. destruct (supervisor s) as [k|].
  - by intros (_ & Hrc & _).
  - intros (Hall & _). pose proof (Forall_lookup_1 _ _ _ _ Hall Hi) as ->.
    discriminate.
Qed.

Lemma fire_handoff_inv ids h0 (s : @pipeline handler_state) i c' :
  inv ids h0 s -> act (AHandOff i) s = Some c' -> cinv ids h0 c'.
Proof.
  intros Hinv Hfire. open_inv Hinv. cbn [fire] in Hfire.
  destruct (producer s) as [|d|] eqn:Hp; try discriminate.
  destruct (workers s !! i) as [[| | | |]|] eqn:Hi; try discriminate.
  injection Hfire as <-.
  assert (work_closed s = false) as Hopen.
  { destruct (work_closed s); [| done].
    destruct Hwc as [Hwc _]. specialize (Hwc eq_refl). discriminate. }
  pose proof (bind_insert_perm (holding CheckDomain) (workers s) i WRecv
                (WCheck d) Hi) as Hb.
  cbn [holding] in Hb. rewrite app_nil_r in Hb.
  unfold config_inv, pipeline_inv. fields.
  split; [by rewrite length_insert |]. split; [done |].
  split.
  { rewrite Hperm, Hb. cbn [sending app]. rewrite fmap_cons.
    solve_Permutation. }
  split; [done |]. split; [by rewrite Hopen |]. split; [done |].
  split; [intros _; apply Forall_insert; [by apply Hwork | exact I] |].
  split; [| done].
  by apply (supervisor_inv_set_worker
              (set_producer (reader s) PRead (work_closed s) s) i WRecv).
Qed.

Lemma fire_check_inv ids h0 (s : @pipeline handler_state) i c' :
  inv ids h0 s -> act (ACheck i) s = Some c' -> cinv ids h0 c'.
Proof.
  intros Hinv Hfire. open_inv Hinv. cbn [fire] in Hfire.
  destruct (workers s !! i) as [[|d| | |]|] eqn:Hi; try discriminate.
  injection Hfire as <-.
  pose proof (bind_insert_perm (holding CheckDomain) (workers s) i (WCheck d)
                (WSend (CheckDomain d)) Hi) as Hb.
  cbn [holding] in Hb. apply Permutation_app_inv_r in Hb.
  unfold config_inv, pipeline_inv. fields.
  split; [by rewrite length_insert |]. split; [done |].
  split; [by rewrite Hperm, Hb |].
  split; [done |]. split; [done |]. split; [done |].
  split; [intros Hopen; apply Forall_insert; [by apply Hwork | exact I] |].
  split; [| done].
  by apply (supervisor_inv_set_worker s i (WCheck d)).
Qed.

Lemma fire_deliver_inv ids h0 (s : @pipeline handler_state) i c' :
  inv ids h0 s -> act (ADeliver i) s = Some c' -> cinv ids h0 c'.
Proof.
  intros Hinv Hfire. open_inv Hinv. cbn [fire] in Hfire.
  destruct (workers s !! i) as [[| |r| |]|] eqn:Hi; try discriminate.
  rewrite (results_open_while_working s i (WSend r) Hi eq_refl Hsup) in Hfire.
  destruct (consumer s) eqn:Hc; try discriminate.
  injection Hfire as <-.
  pose proof (bind_insert_perm (holding CheckDomain) (workers s) i (WSend r)
                WRecv Hi) as Hb.
  cbn [holding] in Hb. rewrite app_nil_r in Hb.
  unfold config_inv, pipeline_inv. fields.
  split; [by rewrite length_insert |]. split; [done |].
  split; [rewrite Hperm, <- Hb; solve_Permutation |].
  split; [by rewrite foldl_snoc, Hfold |].
  split; [done |]. split; [done |].
  split; [intros Hopen; apply Forall_insert; [by apply Hwork | exact I] |].
  split; [| by rewrite Hc].
  by apply (supervisor_inv_set_worker (deliver handle r s) i (WSend r)).
Qed.

Lemma fire_range_end_inv ids h0 (s : @pipeline handler_state) i c' :
  inv ids h0 s -> act (ARangeEnd i) s = Some c' -> cinv ids h0 c'.
Proof.
  intros Hinv Hfire. open_inv Hinv. cbn [fire] in Hfire.
  destruct (workers s !! i) as [[| | | |]|] eqn:Hi; try discriminate.
  destruct (work_closed s) eqn:Hclosed; try discriminate.
  injection Hfire as <-.
  pose proof (bind_insert_perm (holding CheckDomain) (workers s) i WRecv
                WSignal Hi) as Hb.
  cbn [holding] in Hb. rewrite !app_nil_r in Hb.
  unfold config_inv, pipeline_inv. fields.
  split; [by rewrite length_insert |]. split; [done |].
  split; [by rewrite Hperm, Hb |].
  split; [done |]. split; [by rewrite Hclosed |]. split; [done |].
  split; [rewrite Hclosed; discriminate |].
  split; [| done].
  by apply (supervisor_inv_set_worker s i WRecv).
Qed.

Lemma fire_signal_inv ids h0 (s : @pipeline handler_state) i c' :
  inv ids h0 s -> act (ASignal i) s = Some c' -> cinv ids h0 c'.
Proof.
  intros Hinv Hfire. open_inv Hinv. cbn [fire] in Hfire.
  destruct (workers s !! i) as [[| | | |]|] eqn:Hi; try discriminate.
  destruct (supervisor s) as [k|] eqn:Hs; try discriminate.
  destruct (decide (k < poolSize)%nat) as [Hk|]; try discriminate.
  injection Hfire as <-.
  assert (work_closed s = true) as Hclosed.
  { destruct (work_closed s); [done |].
    pose proof (Forall_lookup_1 _ _ _ _ (Hwork eq_refl) Hi) as Hw.
    destruct Hw. }
  pose proof (bind_insert_perm (holding CheckDomain) (workers s) i WSignal
                WExit Hi) as Hb.
  cbn [holding] in Hb. rewrite !app_nil_r in Hb.
  unfold config_inv, pipeline_inv. fields.
  split; [by rewrite length_insert |]. split; [done |].
  split; [by rewrite Hperm, Hb |].
  split; [done |]. split; [done |]. split; [done |].
  split; [rewrite Hclosed; discriminate |].
  split; [| done].
  unfold supervisor_inv in *. fields. rewrite Hs in Hsup.
  destruct Hsup as (Hcount & Hrc & Hcl). split; [| done].
  pose proof (exited_count_insert (workers s) i WSignal WExit Hi) as Hc.
  unfold exited_weight in Hc. cbn [exited] in Hc. lia.
Qed.

Lemma fire_supervisor_inv ids h0 (s : @pipeline handler_state) c' :
  inv ids h0 s -> act ASupervisor s = Some c' -> cinv ids h0 c'.
Proof.
  intros Hinv Hfire. open_inv Hinv. cbn [fire] in Hfire.
  unfold supervisor_inv in Hsup.
  destruct (supervisor s) as [k|] eqn:Hs; try discriminate.
  destruct (decide (k < poolSize)%nat) as [|Hk]; try discriminate.
  destruct Hsup as (Hcount & Hrc & Hcl). rewrite Hrc in Hfire.
  injection Hfire as <-.
  unfold config_inv, pipeline_inv. fields.
  split; [done |]. split; [done |]. split; [done |].
  split; [done |]. split; [done |]. split; [done |]. split; [done |].
  split; [| done].
  unfold supervisor_inv. fields. split; [| by rewrite Hcl].
  apply exited_count_all. pose proof (exited_count_le (workers s)). lia.
Qed.

Lemma fire_consumer_inv ids h0 (s : @pipeline handler_state) c' :
  inv ids h0 s -> act AConsumer s = Some c' -> cinv ids h0 c'.
Proof.
  intros Hinv Hfire. open_inv Hinv. cbn [fire] in Hfire.
  destruct (consumer s) eqn:Hc; try discriminate.
  destruct (results_closed s) eqn:Hrc; try discriminate.
  injection Hfire as <-.
  unfold config_inv, pipeline_inv. fields.
  split; [done |]. split; [done |]. split; [done |].
  split; [done |]. split; [done |]. split; [done |]. split; [done |].
  split; [exact Hsup | done].
Qed.

Lemma fire_inv ids h0 a (s : @pipeline handler_state) c' :
  inv ids h0 s -> act a s = Some c' -> cinv ids h0 c'.
Proof.
  destruct a.
  - apply fire_producer_inv.
  - apply fire_handoff_inv.
  - apply fire_check_inv.
  - apply fire_deliver_inv.
  - apply fire_range_end_inv.
  - apply fire_signal_inv.
  - apply fire_supervisor_inv.
  - apply fire_consumer_inv.
Qed.

Lemma reachable_inv ids h0 c c' :
  cinv ids h0 c -> rtc next c c' -> cinv ids h0 c'.
Proof.
  intros Hc Hsteps. induction Hsteps as [c|c1 c2 c3 Hstep _ IH]; [done |].
  apply IH. destruct c1 as [s|]; [| done].
  destruct Hstep as [a Hfire]. by eapply fire_inv.
Qed.

(** ** Some goroutine can always move until [CheckCSV] returns *)

Lemma workers_cases (ws : list worker_pc) :
  Forall (fun w => w = WExit) ws \/
  (exists i w, ws !! i = Some w /\ busy w) \/
  (exists i, ws !! i = Some WRecv).
Proof.
  induction ws as [|w ws IH]; [left; constructor |].
  destruct w.
  - right. right. by exists 0%nat.
  - right. left. by exists 0%nat, (WCheck domain).
  - right. left. by exists 0%nat, (WSend r).
  - right. left. by exists 0%nat, WSignal.
  - destruct IH as [Hall|[(i & w & Hi & Hw)|(i & Hi)]].
    + left. by constructor.
    + right. left. by exists (S i), w.
    + right. right. by exists (S i).
Qed.

Lemma exited_count_all_exited ws :
  Forall (fun w => w = WExit) ws -> exited_count ws = length ws.
Proof.
  induction 1 as [|w ws -> _ IH]; [done |].
  rewrite exited_count_cons, IH. reflexivity.
Qed.

Lemma producer_can_read (s : @pipeline handler_state) :
  producer s = PRead -> exists c', act AProducer s = Some c'.
Proof.
  intros Hp. cbn [fire]. rewrite Hp.
  destruct (reader s) as [|[data|] rest]; [by eexists | | by eexists].
  destruct (GoInt.len data >? 0); [| by eexists].
  destruct (index data domainColumn); by eexists.
Qed.

Lemma can_move ids h0 (s : @pipeline handler_state) :
  inv ids h0 s -> consumer s = MRecv -> exists a c', act a s = Some c'.
Proof.
  intros Hinv Hc. open_inv Hinv. unfold supervisor_inv in Hsup.
  destruct (supervisor s) as [k|] eqn:Hs.
  - destruct Hsup as (Hk & Hrc & Hcl).
    destruct (workers_cases (workers s))
      as [Hall|[(i & w & Hi & Hw)|(i & Hi)]].
    + exists ASupervisor. cbn [fire]. rewrite Hs, Hrc.
      apply exited_count_all_exited in Hall.
      destruct (decide (k < poolSize)%nat); [lia |]. by eexists.
    + destruct w as [|d|r| |]; try destruct Hw.
      * exists (ACheck i). cbn [fire]. rewrite Hi. by eexists.
      * exists (ADeliver i). cbn [fire]. rewrite Hi, Hrc, Hc. by eexists.
      * exists (ASignal i). cbn [fire]. rewrite Hi, Hs.
        pose proof (exited_count_lt (workers s) i WSignal Hi eq_refl).
        destruct (decide (k < poolSize)%nat); [| lia]. by eexists.
    + destruct (producer s) as [|d|] eqn:Hp.
      * exists AProducer. by apply producer_can_read.
      * exists (AHandOff i). cbn [fire]. rewrite Hp, Hi. by eexists.
      * exists (ARangeEnd i). cbn [fire]. rewrite Hi.
        destruct Hwc as [_ Hwc]. rewrite (Hwc eq_refl). by eexists.
  - destruct Hsup as (_ & Hrc & _).
    exists AConsumer. cbn [fire]. rewrite Hc, Hrc. by eexists.
Qed.

Lemma run_to_return ids h0 n : forall c,
  (measure c <= n)%nat -> cinv ids h0 c ->
  exists s', rtc next c (Running s') /\ consumer s' = MReturned.
Proof.
  induction n as [|n IH]; intros [s|] Hn Hinv; try done.
  - simpl in Hn. lia.
  - destruct (consumer s) eqn:Hc; [| by exists s].
    destruct (can_move ids h0 s Hinv Hc) as (a & c' & Hfire).
    pose proof (fire_decreases a s c' Hfire) as Hlt.
    destruct (IH c') as (s' & Hsteps & Hret); [lia | by eapply fire_inv |].
    exists s'. split; [| done].
    eapply rtc_l; [| exact Hsteps]. by exists a.
Qed.

Lemma exec_reachable sched : forall c, rtc next c (exec handle CheckDomain
                                                    domainColumn poolSize sched c).
Proof.
  induction sched as [|a sched IH]; intros [s|]; simpl; try done.
  destruct (act a s) as [c'|] eqn:Hfire; [| apply IH].
  eapply rtc_l; [| apply IH]. by exists a.
Qed.

(** ** When [CheckCSV] returns, every identifier was delivered once *)

Lemma returned_all ids h0 (s : @pipeline handler_state) :
  (1 <= poolSize)%nat -> inv ids h0 s -> consumer s = MReturned ->
  delivered s ≡ₚ CheckDomain <$> ids /\ closes s = 1%nat /\
  Forall (fun w => w = WExit) (workers s).
Proof.
  intros Hpool Hinv Hc. open_inv Hinv. specialize (Hret Hc).
  unfold supervisor_inv in Hsup.
  destruct (supervisor s) as [k|]; [destruct Hsup as (_ & ? & _); congruence |].
  destruct Hsup as (Hall & _ & Hcl).
  assert (work_closed s = true) as Hclosed.
  { destruct (work_closed s); [done |]. specialize (Hwork eq_refl).
    destruct (workers s) as [|w ws]; [simpl in Hlen; lia |].
    inversion Hall as [|? ? Hw _]. inversion Hwork as [|? ? Hw' _].
    subst. destruct Hw'. }
  destruct Hwc as [Hwc _]. specialize (Hwc Hclosed).
  rewrite Hwc, (Hdone Hwc) in Hperm. cbn [sending enqueue fst app] in Hperm.
  assert (workers s ≫= holding CheckDomain = []) as Hnone.
  { clear -Hall. induction Hall as [|w ws -> _ IH]; [done |]. exact IH. }
  rewrite Hnone in Hperm. cbn [fmap list_fmap app] in Hperm.
  rewrite app_nil_r in Hperm. done.
Qed.

(** C3: [CheckCSV] with a pool of at least one worker, on an input whose
    reading neither fails nor panics. In every configuration a run can
    reach, [results] has been closed at most once and only after all
    workers finished, and the handler has been given exactly the results
    delivered so far. When [CheckCSV] has returned, the results delivered
    are, up to order, the results of [CheckDomain] on the identifiers of
    the input, one for each, and [results] has been closed once. Until
    then some goroutine can move, a run that returns exists from every
    configuration reached, and every step lowers a measure, so every run
    returns, whatever the pool size and the scheduling. *)
Theorem CheckCSV_delivers_each_once (rows : list read_result)
    (h0 : handler_state) :
  (1 <= poolSize)%nat ->
  snd (enqueue domainColumn rows) = None ->
  let ids := fst (enqueue domainColumn rows) in
  let init := Running (start poolSize rows h0) in
  (forall c, rtc next init c ->
     exists s, c = Running s /\
       (results_closed s = true <-> closes s = 1%nat) /\
       (closes s <= 1)%nat /\
       (closes s = 1%nat -> Forall (fun w => w = WExit) (workers s)) /\
       length (workers s) = poolSize /\
       handler s = foldl handle h0 (delivered s) /\
       (consumer s = MReturned ->
          delivered s ≡ₚ CheckDomain <$> ids /\
          length (delivered s) = length ids /\
          closes s = 1%nat) /\
       (consumer s = MRecv -> exists c', next c c') /\
       (exists s', rtc next c (Running s') /\ consumer s' = MReturned)) /\
  (forall c c', next c c' -> (measure c' < measure c)%nat).
Proof.
  intros Hpool Hrows ids init. split; [| apply step_decreases].
  intros c Hsteps.
  assert (cinv ids h0 c) as Hinv.
  { eapply reachable_inv; [| exact Hsteps]. by apply start_inv. }
  destruct c as [s|]; [| done]. exists s. split; [done |].
  pose proof Hinv as Hinv'. open_inv Hinv'. unfold supervisor_inv in Hsup.
  split.
  { destruct (supervisor s); destruct Hsup as (? & -> & ->); done. }
  split.
  { destruct (supervisor s); destruct Hsup as (? & ? & ->); lia. }
  split.
  { destruct (supervisor s); destruct Hsup as (? & ? & Hcl); [lia | done]. }
  split; [done |]. split; [done |].
  split.
  { intros Hc.
    destruct (returned_all ids h0 s Hpool Hinv Hc) as (Hp & Hcl & _).
    split; [done |]. split; [| done].
    by rewrite Hp, length_fmap. }
  split.
  { intros Hc. destruct (can_move ids h0 s Hinv Hc) as (a & c' & Hfire).
    exists c', a. exact Hfire. }
  by apply (run_to_return ids h0 (measure (Running s))).
Qed.

End PipelineProperties.

(** The pool size [CheckCSV] uses is at least one, whatever the
    environment holds, and any positive setting is taken as it is. *)
Lemma CheckCSV_pool_positive atoi : (1 <= CheckCSV_pool atoi)%nat.
Proof.
  unfold CheckCSV_pool, poolSize_of, defaultPoolSize.
  destruct atoi as [n|]; [| lia]. destruct (Z.leb_spec n 0); lia.
Qed.

Lemma CheckCSV_pool_setting (p : nat) :
  (1 <= p)%nat -> CheckCSV_pool (Some (Z.of_nat p)) = p.
Proof.
  intros Hp. unfold CheckCSV_pool, poolSize_of.
  destruct (Z.leb_spec (Z.of_nat p) 0); lia.
Qed.

Lemma CheckCSV_delivers_each_once_witness :
  let init := Running (start 2 three_rows zero_scan) in
  exists s,
    exec HandleDomain check_stub 0 2 two_worker_schedule init = Running s /\
    consumer s = MReturned /\
    delivered s ≡ₚ check_stub <$> ["a.example"; "b.example"]%string /\
    Attempted (handler s) = 2.
Proof.
  intros init.
  destruct (CheckCSV_delivers_each_once HandleDomain check_stub 0 2
              three_rows zero_scan ltac:(lia) eq_refl) as [Hreach _].
  destruct (Hreach (exec HandleDomain check_stub 0 2 two_worker_schedule init)
              (exec_reachable HandleDomain check_stub 0 2
                 two_worker_schedule init))
    as (s & Hs & _ & _ & _ & _ & Hfold & Hret & _).
  exists s. split; [exact Hs |].
  vm_compute in Hs. injection Hs as <-.
  split; [reflexivity |]. split; [| reflexivity].
  apply Hret. reflexivity.
Defined.

(* ===================================================================== *)
(** * More properties of the result model                                 *)
(* ===================================================================== *)

Lemma SetStatus_known a b :
  known_status a -> known_status b -> known_status (SetStatus a b).
Proof.
  unfold known_status. rewrite SetStatus_max.
  unfold Success, Warning, Failure, Error. lia.
Qed.

Lemma known_status_nonneg s : known_status s -> Success <= s.
Proof. unfold known_status, Success, Warning, Failure, Error. lia. Qed.

Section BuiltStores.

Context {arg : Type}.
Variable Sprintf : string -> list arg -> string.

(** What a call that returns did to the store: it allocated a result, or
    it replaced one result by an update of it. *)
Lemma exec_op_update (o : @op arg) (h h' : heap) :
  exec_op Sprintf o h = Some h' ->
  (exists name,
      o = OpMake name /\
      h' = <[fresh (dom h) := mkResult name Success [] (Some ∅)]> h) \/
  (exists r res level cs,
      h !! r = Some res /\ head (op_pointers o) = Some r /\
      h' = <[r := mkResult (Name res) (SetStatus (Status_ res) level)
                    (Messages res ++ message_of Sprintf o r) cs]> h /\
      ((cs = Checks res /\ known_status level) \/
       (exists c child m,
           o = OpAddCheck r c /\ h !! c = Some child /\
           Checks res = Some m /\ level = Status_ child /\
           cs = Some (<[Name child := c]> m)))).
Proof.
  intros Hex. destruct o as [name|r f a|r f a|r f a|r|r c]; simpl in Hex.
  - left. exists name. split; [done |]. by injection Hex as <-.
  - right. unfold Result_Error, report in Hex.
    destruct (h !! r) as [res|] eqn:Hr; [| done]. injection Hex as <-.
    exists r, res, Error, (Checks res). simpl. rewrite decide_True by done.
    split; [done |]. split; [done |]. split; [done |].
    left. split; [done |]. unfold known_status. tauto.
  - right. unfold Result_Failure, report in Hex.
    destruct (h !! r) as [res|] eqn:Hr; [| done]. injection Hex as <-.
    exists r, res, Failure, (Checks res). simpl. rewrite decide_True by done.
    split; [done |]. split; [done |]. split; [done |].
    left. split; [done |]. unfold known_status. tauto.
  - right. unfold Result_Warning, report in Hex.
    destruct (h !! r) as [res|] eqn:Hr; [| done]. injection Hex as <-.
    exists r, res, Warning, (Checks res). simpl. rewrite decide_True by done.
    split; [done |]. split; [done |]. split; [done |].
    left. split; [done |]. unfold known_status. tauto.
  - right. unfold Result_Success in Hex.
    destruct (h !! r) as [res|] eqn:Hr; [| done]. injection Hex as <-.
    exists r, res, Success, (Checks res). simpl. rewrite app_nil_r.
    split; [done |]. split; [done |]. split; [done |].
    left. split; [done |]. unfold known_status. tauto.
  - right. destruct (h !! r) as [res|] eqn:Hr;
      [| unfold addCheck in Hex; rewrite Hr in Hex; done].
    destruct (Checks res) as [m|] eqn:Hm;
      [| unfold addCheck in Hex; rewrite Hr in Hex; simpl in Hex;
         rewrite Hm in Hex; done].
    destruct (h !! c) as [child|] eqn:Hc;
      [| unfold addCheck in Hex; rewrite Hr in Hex; simpl in Hex;
         rewrite Hm in Hex; simpl in Hex; rewrite Hc in Hex; done].
    rewrite (addCheck_spec r c h res m child Hr Hm Hc) in Hex.
    injection Hex as <-.
    exists r, res, (Status_ child), (Some (<[Name child := c]> m)).
    simpl. rewrite app_nil_r.
    split; [done |]. split; [done |]. split; [done |].
    right. by exists c, child, m.
Qed.

(** A call returns exactly when the pointers it dereferences are
    allocated, provided the store is well formed. *)
Lemma exec_op_is_Some (o : @op arg) (h : heap) :
  wf_heap h ->
  is_Some (exec_op Sprintf o h) <->
  Forall (fun l => is_Some (h !! l)) (op_pointers o).
Proof.
  intros Hwf.
  assert (forall level prefix r f a,
             is_Some (report Sprintf level prefix r f a h) <->
             Forall (fun l => is_Some (h !! l)) [r]) as Hrep.
  { intros level prefix r f a. unfold report. split.
    - intros Hs. constructor; [| constructor].
      destruct (h !! r); [done | by destruct Hs].
    - intros Hall. inversion Hall as [|? ? [res Hr] _]. subst.
      rewrite Hr. done. }
  destruct o as [name|r f a|r f a|r f a|r|r c]; simpl.
  - split; [constructor | done].
  - apply Hrep.
  - apply Hrep.
  - apply Hrep.
  - unfold Result_Success. split.
    + intros Hs. constructor; [| constructor].
      destruct (h !! r); [done | by destruct Hs].
    + intros Hall. inversion Hall as [|? ? [res Hr] _]. subst.
      rewrite Hr. done.
  - split.
    + intros [h' Hadd]. unfold addCheck in Hadd.
      destruct (h !! r) as [res|] eqn:Hr; [| done]. simpl in Hadd.
      destruct (Checks res) as [m|]; [| done]. simpl in Hadd.
      destruct (h !! c) as [child|] eqn:Hc; [| done].
      repeat constructor; done.
    + intros Hall. inversion Hall as [|? ? [res Hr] Hall']. subst.
      inversion Hall' as [|? ? [child Hc] _]. subst.
      destruct (Hwf r res Hr) as (_ & m & Hm & _).
      rewrite (addCheck_spec r c h res m child Hr Hm Hc). done.
Qed.

Lemma exec_op_wf (o : @op arg) (h h' : heap) :
  wf_heap h -> exec_op Sprintf o h = Some h' -> wf_heap h'.
Proof.
  intros Hwf Hex.
  destruct (exec_op_update o h h' Hex)
    as [(name & -> & ->)|(r & res & level & cs & Hr & _ & -> & Hcs)].
  - assert (h !! fresh (dom h) = None) as Hfresh.
    { apply not_elem_of_dom. apply is_fresh. }
    intros l resl. destruct (decide (fresh (dom h) = l)) as [<-|Hne].
    + rewrite lookup_insert_eq. intros [= <-]. simpl.
      split; [by left |]. exists ∅. split; [done |].
      intros k c. by rewrite lookup_empty.
    + rewrite lookup_insert_ne by done. intros Hl.
      destruct (Hwf l resl Hl) as (Hknown & m & Hm & Hentries).
      split; [done |]. exists m. split; [done |].
      intros k c Hk. destruct (Hentries k c Hk) as (child & Hc & Hname).
      exists child. split; [| done].
      rewrite lookup_insert_ne; [done |]. intros <-. congruence.
  - destruct (Hwf r res Hr) as (Hknown & m & Hm & Hentries).
    assert (forall c child, h !! c = Some child ->
              exists child',
                <[r := mkResult (Name res) (SetStatus (Status_ res) level)
                         (Messages res ++ message_of Sprintf o r) cs]> h
                  !! c = Some child' /\ Name child' = Name child) as Hkeep.
    { intros c child Hc. destruct (decide (r = c)) as [<-|Hne].
      - rewrite lookup_insert_eq. eexists. split; [done |]. simpl.
        congruence.
      - rewrite lookup_insert_ne by done. by exists child. }
    intros l resl. destruct (decide (r = l)) as [<-|Hne].
    + rewrite lookup_insert_eq. intros [= <-]. simpl.
      destruct Hcs as [[-> Hlevel]|(c & child & m' & -> & Hc & Hm' & -> & ->)].
      * split; [by apply SetStatus_known |]. exists m. split; [done |].
        intros k c Hk. destruct (Hentries k c Hk) as (child & Hc & <-).
        by apply Hkeep.
      * destruct (Hwf c child Hc) as (Hknownc & _).
        split; [by apply SetStatus_known |].
        eexists. split; [done |]. intros k c'.
        assert (m' = m) as -> by congruence.
        destruct (decide (Name child = k)) as [<-|Hk].
        -- rewrite lookup_insert_eq. intros [= <-]. by apply Hkeep.
        -- rewrite lookup_insert_ne by done. intros Hk'.
           destruct (Hentries k c' Hk') as (child' & Hc' & <-).
           by apply Hkeep.
    + rewrite lookup_insert_ne by done. intros Hl.
      destruct (Hwf l resl Hl) as (Hknownl & ml & Hml & Hentriesl).
      split; [done |]. exists ml. split; [done |].
      intros k c Hk. destruct (Hentriesl k c Hk) as (child & Hc & <-).
      by apply Hkeep.
Qed.

Lemma run_wf (ops : list (@op arg)) : forall (h h' : heap),
  wf_heap h -> run Sprintf ops h = Some h' -> wf_heap h'.
Proof.
  induction ops as [|o ops IH]; intros h h' Hwf Hrun; simpl in Hrun.
  - by injection Hrun as <-.
  - destruct (exec_op Sprintf o h) as [h1|] eqn:Hex; [| done].
    simpl in Hrun. eapply IH; [| exact Hrun]. by eapply exec_op_wf.
Qed.

Lemma wf_heap_empty : wf_heap ∅.
Proof. intros l res. by rewrite lookup_empty. Qed.

End BuiltStores.

Section BuiltStoreProperties.

Context {arg : Type}.
Variable Sprintf : string -> list arg -> string.

(** X1: in a store built by any program from the empty store, every
    [Checks] map is allocated and each of its entries points to an
    allocated result filed under its own name. So a further call panics
    exactly when one of the pointers it is given is not allocated, and
    [subcheckSucceeded] on an allocated result always answers. *)
Theorem built_store_calls (ops : list (@op arg)) (h : heap) :
  run Sprintf ops ∅ = Some h ->
  wf_heap h /\
  (forall o : @op arg,
      is_Some (exec_op Sprintf o h) <->
      Forall (fun l => is_Some (h !! l)) (op_pointers o)) /\
  (forall r x, is_Some (subcheckSucceeded r x h) <-> is_Some (h !! r)).
Proof.
  intros Hrun.
  assert (wf_heap h) as Hwf by (eapply run_wf; [apply wf_heap_empty | done]).
  split; [done |]. split; [intros o; by apply exec_op_is_Some |].
  intros r x. unfold subcheckSucceeded.
  destruct (h !! r) as [res|] eqn:Hr; simpl; [| done].
  split; [done |]. intros _.
  destruct (Hwf r res Hr) as (_ & m & -> & Hentries). simpl.
  destruct (m !! x) as [c|] eqn:Hx; [| done].
  destruct (Hentries x c Hx) as (child & -> & _). done.
Qed.

(** X2: the status of a result built through the API is always one of the
    four declared values, so [StatusText] finds it in the table: the text
    is never empty, and two built results have the same text only if they
    have the same status. A status outside the table reads as the empty
    string. *)
Theorem StatusText_of_built (ops : list (@op arg)) (h : heap) l res :
  run Sprintf ops ∅ = Some h -> h !! l = Some res ->
  known_status (Status_ res) /\
  statusText (Status_ res) = Some (StatusText res) /\
  StatusText res <> EmptyString /\
  (forall l' res', h !! l' = Some res' ->
      StatusText res = StatusText res' -> Status_ res = Status_ res') /\
  (forall r : Result, ~ known_status (Status_ r) -> StatusText r = EmptyString).
Proof.
  intros Hrun Hl.
  assert (wf_heap h) as Hwf by (eapply run_wf; [apply wf_heap_empty | done]).
  destruct (Hwf l res Hl) as (Hknown & _).
  split; [done |]. unfold StatusText.
  split; [by destruct Hknown as [-> | [-> | [-> | ->]]] |].
  split; [by destruct Hknown as [-> | [-> | [-> | ->]]] |].
  split.
  - intros l' res' Hl'. destruct (Hwf l' res' Hl') as (Hknown' & _).
    destruct Hknown as [-> | [-> | [-> | ->]]];
      destruct Hknown' as [-> | [-> | [-> | ->]]]; done.
  - intros r Hr. unfold statusText, known_status in *.
    destruct (Z.eqb_spec (Status_ r) Success); [tauto |].
    destruct (Z.eqb_spec (Status_ r) Warning); [tauto |].
    destruct (Z.eqb_spec (Status_ r) Failure); [tauto |].
    destruct (Z.eqb_spec (Status_ r) Error); [tauto | done].
Qed.

Lemma evolves_refl (h : heap) : evolves h h.
Proof.
  intros l res Hl. exists res. split; [done |]. split; [done |].
  split; [lia |]. split; [done |]. intros m Hm. by exists m.
Qed.

Lemma evolves_trans (h1 h2 h3 : heap) :
  evolves h1 h2 -> evolves h2 h3 -> evolves h1 h3.
Proof.
  intros H12 H23 l res1 Hl.
  destruct (H12 l res1 Hl) as (res2 & Hl2 & Hn2 & Hs2 & Hm2 & Hc2).
  destruct (H23 l res2 Hl2) as (res3 & Hl3 & Hn3 & Hs3 & Hm3 & Hc3).
  exists res3. split; [done |]. split; [congruence |].
  split; [lia |]. split; [by etrans |].
  intros m1 Hm1. destruct (Hc2 m1 Hm1) as (m2 & Hcs2 & Hd2).
  destruct (Hc3 m2 Hcs2) as (m3 & Hcs3 & Hd3).
  exists m3. split; [done |]. set_solver.
Qed.

Lemma exec_op_evolves (o : @op arg) (h h' : heap) :
  exec_op Sprintf o h = Some h' -> evolves h h'.
Proof.
  intros Hex.
  destruct (exec_op_update Sprintf o h h' Hex)
    as [(name & -> & ->)|(r & res & level & cs & Hr & _ & -> & Hcs)].
  - assert (h !! fresh (dom h) = None) as Hfresh.
    { apply not_elem_of_dom. apply is_fresh. }
    intros l resl Hl. exists resl.
    rewrite lookup_insert_ne by (intros <-; congruence).
    split; [done |]. split; [done |]. split; [lia |]. split; [done |].
    intros m Hm. by exists m.
  - intros l resl Hl. destruct (decide (r = l)) as [<-|Hne].
    + rewrite lookup_insert_eq. eexists. split; [done |]. simpl.
      assert (resl = res) as -> by congruence.
      split; [done |]. split; [apply SetStatus_ge_old |].
      split; [by apply prefix_app_r |].
      intros m Hm.
      destruct Hcs as [[-> _]|(c & child & m' & -> & Hc & Hm' & -> & ->)].
      * by exists m.
      * eexists. split; [done |]. assert (m' = m) as -> by congruence.
        rewrite dom_insert_L. set_solver.
    + rewrite lookup_insert_ne by done. exists resl.
      split; [done |]. split; [done |]. split; [lia |]. split; [done |].
      intros m Hm. by exists m.
Qed.

(** X3: whatever program runs, from any store, no result is deallocated
    or renamed, no status ever decreases, messages are only ever added at
    the end of [Messages], and no name leaves a [Checks] map. *)
Theorem run_evolves (ops : list (@op arg)) (h h' : heap) :
  run Sprintf ops h = Some h' -> evolves h h'.
Proof.
  revert h. induction ops as [|o ops IH]; intros h Hrun; simpl in Hrun.
  - injection Hrun as <-. apply evolves_refl.
  - destruct (exec_op Sprintf o h) as [h1|] eqn:Hex; [| done].
    simpl in Hrun. eapply evolves_trans; [by eapply exec_op_evolves |].
    by apply IH.
Qed.

Lemma exec_op_messages (o : @op arg) (h h' : heap) l :
  exec_op Sprintf o h = Some h' ->
  messages_at h' l = messages_at h l ++ message_of Sprintf o l.
Proof.
  intros Hex. unfold messages_at.
  destruct (exec_op_update Sprintf o h h' Hex)
    as [(name & -> & ->)|(r & res & level & cs & Hr & Hin & -> & Hcs)].
  - assert (h !! fresh (dom h) = None) as Hfresh.
    { apply not_elem_of_dom. apply is_fresh. }
    simpl. rewrite app_nil_r.
    destruct (decide (fresh (dom h) = l)) as [<-|Hne].
    + by rewrite lookup_insert_eq, Hfresh.
    + by rewrite lookup_insert_ne.
  - destruct (decide (r = l)) as [<-|Hne].
    + by rewrite lookup_insert_eq, Hr.
    + rewrite lookup_insert_ne by done.
      assert (message_of Sprintf o l = []) as ->.
      { destruct o as [name|r' f a|r' f a|r' f a|r'|r' c]; simpl in *;
          try done; injection Hin as ->; by rewrite decide_False. }
      by rewrite app_nil_r.
Qed.

Lemma run_messages (ops : list (@op arg)) : forall (h h' : heap) l,
  run Sprintf ops h = Some h' ->
  messages_at h' l = messages_at h l ++ messages_logged Sprintf ops l.
Proof.
  induction ops as [|o ops IH]; intros h h' l Hrun; simpl in Hrun.
  - injection Hrun as <-. unfold messages_logged. simpl.
    by rewrite app_nil_r.
  - destruct (exec_op Sprintf o h) as [h1|] eqn:Hex; [| done].
    simpl in Hrun. rewrite (IH h1 h' l Hrun).
    rewrite (exec_op_messages o h h1 l Hex).
    unfold messages_logged. rewrite bind_cons. by rewrite app_assoc.
Qed.

(** X4: after any program run from the empty store, [Messages] of a
    result holds exactly the formatted messages of the [Error], [Failure]
    and [Warning] calls made on that result, in call order; [Success],
    [addCheck] and calls on other results, its children included, add
    nothing to it. *)
Theorem messages_are_logged (ops : list (@op arg)) (h : heap) l res :
  run Sprintf ops ∅ = Some h -> h !! l = Some res ->
  Messages res = messages_logged Sprintf ops l /\
  length (Messages res) =
    length (filter (fun o => message_of Sprintf o l <> []) ops).
Proof.
  intros Hrun Hl. pose proof (run_messages ops ∅ h l Hrun) as Hm.
  unfold messages_at in Hm. rewrite Hl, lookup_empty in Hm. simpl in Hm.
  split; [done |]. rewrite Hm. clear.
  unfold messages_logged. induction ops as [|o ops IH]; [done |].
  rewrite bind_cons, length_app, IH, filter_cons.
  destruct (decide (message_of Sprintf o l <> [])) as [Hne|Heq].
  - destruct o as [name|r f a|r f a|r f a|r|r c]; simpl in *; try done;
      destruct (decide (r = l)); done.
  - apply dec_stable in Heq. rewrite Heq. done.
Qed.

(** X5: on a store built through the API, [Success] changes nothing: no
    status is below [Success], so the call leaves the store as it is. *)
Theorem Success_is_noop (ops : list (@op arg)) (h : heap) r res :
  run Sprintf ops ∅ = Some h -> h !! r = Some res ->
  Result_Success r h = Some h.
Proof.
  intros Hrun Hr.
  assert (wf_heap h) as Hwf by (eapply run_wf; [apply wf_heap_empty | done]).
  destruct (Hwf r res Hr) as (Hknown & _).
  rewrite (Result_Success_spec r h res Hr). f_equal.
  apply insert_id. rewrite Hr. f_equal.
  destruct res as [n s ms cs]. simpl in *. f_equal.
  rewrite SetStatus_max. pose proof (known_status_nonneg s Hknown).
  unfold Success in *. lia.
Qed.

Lemma run_status_mono (ops : list (@op arg)) : forall (h h' : heap) l res,
  run Sprintf ops h = Some h' -> h !! l = Some res ->
  exists res', h' !! l = Some res' /\ Status_ res <= Status_ res'.
Proof.
  induction ops as [|o ops IH]; intros h h' l res Hrun Hl; simpl in Hrun.
  - injection Hrun as <-. exists res. split; [done | lia].
  - destruct (exec_op Sprintf o h) as [h1|] eqn:Hex; [| done].
    simpl in Hrun.
    destruct (exec_op_evolves o h h1 Hex l res Hl) as (res1 & Hl1 & _ & Hs1 & _).
    destruct (IH h1 h' l res1 Hrun Hl1) as (res' & Hl' & Hs').
    exists res'. split; [done | lia].
Qed.

(** X6: on a store built through the API the reporting calls override as
    their comments say. After [Error] the result is at Error, and it stays
    there whatever is called afterwards; after [Failure] it is at Failure
    unless it was at Error; after [Warning] it is at Warning only if it was
    at Success and keeps its status otherwise. *)
Theorem reports_override (ops : list (@op arg)) (h : heap) r res :
  run Sprintf ops ∅ = Some h -> h !! r = Some res ->
  (forall f a,
      exists h1,
        Result_Error Sprintf r f a h = Some h1 /\ status_at h1 r = Error /\
        forall ops' h2, run Sprintf ops' h1 = Some h2 ->
                        status_at h2 r = Error) /\
  (forall f a,
      exists h1,
        Result_Failure Sprintf r f a h = Some h1 /\
        status_at h1 r =
          if decide (Status_ res = Error) then Error else Failure) /\
  (forall f a,
      exists h1,
        Result_Warning Sprintf r f a h = Some h1 /\
        status_at h1 r =
          if decide (Status_ res = Success) then Warning else Status_ res).
Proof.
  intros Hrun Hr.
  assert (wf_heap h) as Hwf by (eapply run_wf; [apply wf_heap_empty | done]).
  destruct (Hwf r res Hr) as (Hknown & _).
  split; [| split]; intros f a.
  - eexists. split; [by apply report_spec |].
    assert (Status_ (mkResult (Name res) (SetStatus (Status_ res) Error)
                       (Messages res ++ [Sprintf ("Error: " +:+ f) a])
                       (Checks res)) = Error) as Hs.
    { simpl. rewrite SetStatus_max.
      destruct Hknown as [-> | [-> | [-> | ->]]]; reflexivity. }
    split; [unfold status_at; by rewrite lookup_insert_eq |].
    intros ops' h2 Hrun2.
    assert (wf_heap
              (<[r := mkResult (Name res) (SetStatus (Status_ res) Error)
                        (Messages res ++ [Sprintf ("Error: " +:+ f) a])
                        (Checks res)]> h)) as Hwf1.
    { apply (exec_op_wf Sprintf (OpError r f a) h); [done |]. simpl.
      by apply report_spec. }
    destruct (run_status_mono ops' _ h2 r _ Hrun2 (lookup_insert_eq _ _ _))
      as (res2 & Hr2 & Hle).
    pose proof (run_wf Sprintf ops' _ h2 Hwf1 Hrun2 r res2 Hr2) as (Hk2 & _).
    unfold status_at. rewrite Hr2. rewrite Hs in Hle.
    destruct Hk2 as [Hk | [Hk | [Hk | Hk]]]; rewrite Hk in *;
      unfold Success, Warning, Failure, Error in *; lia.
  - eexists. split; [by apply report_spec |].
    unfold status_at. rewrite lookup_insert_eq. simpl. rewrite SetStatus_max.
    destruct Hknown as [-> | [-> | [-> | ->]]]; reflexivity.
  - eexists. split; [by apply report_spec |].
    unfold status_at. rewrite lookup_insert_eq. simpl. rewrite SetStatus_max.
    destruct Hknown as [-> | [-> | [-> | ->]]]; reflexivity.
Qed.

End BuiltStoreProperties.

(** X7: attaching the same child twice is the same as attaching it once,
    and two children with different names can be attached in either
    order: the parent ends with the same [Checks] and the same status.
    Either order panics when the other does. *)
Theorem addCheck_compose (h : heap) (r c1 c2 : loc) ch1 ch2 :
  h !! c1 = Some ch1 -> h !! c2 = Some ch2 ->
  addCheck r c1 h ≫= addCheck r c1 = addCheck r c1 h /\
  (Name ch1 <> Name ch2 ->
   addCheck r c1 h ≫= addCheck r c2 = addCheck r c2 h ≫= addCheck r c1).
Proof.
  intros Hc1 Hc2.
  destruct (h !! r) as [res|] eqn:Hr;
    [| unfold addCheck; rewrite Hr; done].
  destruct (Checks res) as [m|] eqn:Hm;
    [| unfold addCheck; rewrite Hr; simpl; rewrite Hm; done].
  assert (forall c ch, h !! c = Some ch ->
            exists ch',
              <[r := mkResult (Name res) (SetStatus (Status_ res) (Status_ ch))
                       (Messages res) (Some (<[Name ch := c]> m))]> h !! c
                = Some ch' /\
              Name ch' = Name ch /\
              SetStatus (SetStatus (Status_ res) (Status_ ch)) (Status_ ch')
                = SetStatus (Status_ res) (Status_ ch)) as Hsame.
  { intros c ch Hc. destruct (decide (r = c)) as [<-|Hne].
    - rewrite lookup_insert_eq. eexists. split; [done |]. simpl.
      assert (ch = res) as -> by congruence.
      split; [done |]. rewrite !SetStatus_max. lia.
    - rewrite lookup_insert_ne by done. exists ch. split; [done |].
      split; [done |]. rewrite !SetStatus_max. lia. }
  split.
  - rewrite (addCheck_spec r c1 h res m ch1 Hr Hm Hc1). simpl.
    destruct (Hsame c1 ch1 Hc1) as (ch' & Hc' & Hn & Hs).
    erewrite addCheck_spec; [| apply lookup_insert_eq | reflexivity | exact Hc'].
    simpl. rewrite Hn, Hs, !insert_insert_eq. reflexivity.
  - intros Hnames.
    assert (forall c c' ch ch',
              h !! c = Some ch -> h !! c' = Some ch' -> Name ch <> Name ch' ->
              exists ch'',
                <[r := mkResult (Name res)
                         (SetStatus (Status_ res) (Status_ ch))
                         (Messages res) (Some (<[Name ch := c]> m))]> h !! c'
                  = Some ch'' /\
                Name ch'' = Name ch' /\
                SetStatus (SetStatus (Status_ res) (Status_ ch)) (Status_ ch'')
                  = Z.max (Status_ res) (Z.max (Status_ ch) (Status_ ch')))
      as Hother.
    { intros c c' ch ch' Hc Hc' Hn. destruct (decide (r = c')) as [<-|Hne].
      - rewrite lookup_insert_eq. eexists. split; [done |]. simpl.
        assert (ch' = res) as -> by congruence.
        split; [done |]. rewrite !SetStatus_max. lia.
      - rewrite lookup_insert_ne by done. exists ch'. split; [done |].
        split; [done |]. rewrite !SetStatus_max. lia. }
    rewrite (addCheck_spec r c1 h res m ch1 Hr Hm Hc1).
    rewrite (addCheck_spec r c2 h res m ch2 Hr Hm Hc2). simpl.
    destruct (Hother c1 c2 ch1 ch2 Hc1 Hc2 Hnames) as (ch2' & Hc2' & Hn2 & Hs2).
    destruct (Hother c2 c1 ch2 ch1 Hc2 Hc1 (not_eq_sym Hnames))
      as (ch1' & Hc1' & Hn1 & Hs1).
    erewrite (addCheck_spec r c2);
      [| apply lookup_insert_eq | reflexivity | exact Hc2'].
    erewrite (addCheck_spec r c1);
      [| apply lookup_insert_eq | reflexivity | exact Hc1'].
    simpl. rewrite Hn1, Hn2, Hs1, Hs2, !insert_insert_eq.
    rewrite (insert_insert_ne m (Name ch2) (Name ch1)) by done.
    do 3 f_equal. lia.
Qed.

Lemma child_in_children (h : heap) l res m k c :
  h !! l = Some res -> Checks res = Some m -> m !! k = Some c ->
  c ∈ children h.
Proof.
  intros Hl Hm Hk. unfold children. apply list_elem_of_bind.
  exists (l, res). split; [| by apply elem_of_map_to_list].
  simpl. rewrite Hm. apply list_elem_of_fmap.
  exists (k, c). split; [done |]. by apply elem_of_map_to_list.
Qed.

Section BottomUp.

Context {arg : Type}.
Variable Sprintf : string -> list arg -> string.

Lemma exec_op_dominate (o : @op arg) (h h' : heap) :
  wf_heap h -> parents_dominate h ->
  (forall r, head (op_pointers o) = Some r -> r ∉ children h) ->
  exec_op Sprintf o h = Some h' -> parents_dominate h'.
Proof.
  intros Hwf Hdom Hfree Hex.
  destruct (exec_op_update Sprintf o h h' Hex)
    as [(name & -> & ->)|(r & res & level & cs & Hr & Hhead & -> & Hcs)].
  - assert (h !! fresh (dom h) = None) as Hfresh.
    { apply not_elem_of_dom. apply is_fresh. }
    intros l resl m k c child.
    destruct (decide (fresh (dom h) = l)) as [<-|Hne].
    + rewrite lookup_insert_eq. intros [= <-]. simpl. intros [= <-].
      by rewrite lookup_empty.
    + rewrite lookup_insert_ne by done. intros Hl Hm Hk.
      destruct (Hwf l resl Hl) as (_ & m' & Hm' & Hentries).
      assert (m' = m) as -> by congruence.
      destruct (Hentries k c Hk) as (child' & Hc & _).
      rewrite lookup_insert_ne by (intros <-; congruence).
      intros Hc'. by eapply Hdom.
  - specialize (Hfree r Hhead).
    assert (forall l resl m k, h !! l = Some resl -> Checks resl = Some m ->
                               m !! k <> Some r) as Hnochild.
    { intros l resl m k Hl Hm Hk. apply Hfree. by eapply child_in_children. }
    intros l resl m k c child.
    destruct (decide (r = l)) as [<-|Hne].
    + rewrite lookup_insert_eq. intros [= <-]. simpl.
      destruct Hcs as [[-> _]|(c0 & child0 & m0 & -> & Hc0 & Hm0 & -> & ->)].
      * intros Hm Hk. destruct (decide (r = c)) as [<-|Hrc].
        { by destruct (Hnochild r res m k Hr Hm). }
        rewrite lookup_insert_ne by done. intros Hc.
        pose proof (Hdom r res m k c child Hr Hm Hk Hc).
        pose proof (SetStatus_ge_old (Status_ res) level). lia.
      * intros [= <-]. destruct (decide (Name child0 = k)) as [<-|Hk0].
        -- rewrite lookup_insert_eq. intros [= <-].
           destruct (decide (r = c0)) as [<-|Hrc].
           ++ rewrite lookup_insert_eq. intros [= <-]. simpl. lia.
           ++ rewrite lookup_insert_ne by done. intros Hc.
              assert (child = child0) as -> by congruence.
              rewrite SetStatus_max. lia.
        -- rewrite lookup_insert_ne by done. intros Hk.
           destruct (decide (r = c)) as [<-|Hrc].
           { by destruct (Hnochild r res m0 k Hr Hm0). }
           rewrite lookup_insert_ne by done. intros Hc.
           pose proof (Hdom r res m0 k c child Hr Hm0 Hk Hc).
           pose proof (SetStatus_ge_old (Status_ res) (Status_ child0)). lia.
    + rewrite lookup_insert_ne by done. intros Hl Hm Hk.
      destruct (decide (r = c)) as [<-|Hrc].
      { by destruct (Hnochild l resl m k Hl Hm). }
      rewrite lookup_insert_ne by done. intros Hc. by eapply Hdom.
Qed.

Lemma run_dominate (ops : list (@op arg)) : forall (h h' : heap),
  wf_heap h -> parents_dominate h ->
  bottom_up Sprintf ops h = true ->
  run Sprintf ops h = Some h' -> parents_dominate h'.
Proof.
  induction ops as [|o ops IH]; intros h h' Hwf Hdom Hbu Hrun;
    simpl in Hrun, Hbu.
  - by injection Hrun as <-.
  - destruct (exec_op Sprintf o h) as [h1|] eqn:Hex; [| done].
    simpl in Hrun. apply andb_true_iff in Hbu as [Hfree Hbu].
    apply (IH h1 h'); [by eapply exec_op_wf | | done | done].
    eapply exec_op_dominate; [done | done | | exact Hex].
    intros r Hhead.
    destruct o as [name|r' f a|r' f a|r' f a|r'|r' c]; simpl in Hhead;
      try done; injection Hhead as ->; by apply bool_decide_eq_true in Hfree.
Qed.

(** X8: if a program builds its trees bottom-up, that is, no call has as
    its receiver a result that is already somebody's child, then in the
    store it leaves every result is at least as severe as each child its
    [Checks] holds: no failure of a child present in the tree is missing
    from its parent. *)
Theorem bottom_up_parents_dominate (ops : list (@op arg)) (h : heap) :
  run Sprintf ops ∅ = Some h -> bottom_up Sprintf ops ∅ = true ->
  parents_dominate h.
Proof.
  intros Hrun Hbu.
  apply (run_dominate ops ∅ h); [apply wf_heap_empty | | done | done].
  intros l res m k c child. by rewrite lookup_empty.
Qed.

End BottomUp.

(** ** The properties above on concrete programs *)

Lemma built_store_calls_witness :
  wf_heap overwrite_final /\
  (forall o : @op string,
      is_Some (exec_op Sprintf_verbatim o overwrite_final) <->
      Forall (fun l => is_Some (overwrite_final !! l)) (op_pointers o)) /\
  (forall r x, is_Some (subcheckSucceeded r x overwrite_final) <->
               is_Some (overwrite_final !! r)).
Proof.
  apply (built_store_calls Sprintf_verbatim overwrite_program overwrite_final).
  vm_compute. reflexivity.
Defined.

Lemma StatusText_of_built_witness :
  statusText Error = Some "Error"%string /\
  StatusText (mkResult "example.com" Error []
                (Some {[ "starttls"%string := 3%positive ]})) <> EmptyString.
Proof.
  destruct (StatusText_of_built Sprintf_verbatim overwrite_program
              overwrite_final 1%positive
              (mkResult "example.com" Error []
                 (Some {[ "starttls"%string := 3%positive ]})))
    as (_ & Htext & Hne & _); [vm_compute; reflexivity .. |].
  split; [exact Htext | exact Hne].
Defined.

Lemma run_evolves_witness :
  evolves three_results
    (default ∅ (run Sprintf_verbatim
                  [OpAddCheck 1%positive 2%positive;
                   OpFailure 3%positive "certificate expired" []]
                  three_results)).
Proof.
  apply (run_evolves Sprintf_verbatim
           [OpAddCheck 1%positive 2%positive;
            OpFailure 3%positive "certificate expired" []]).
  vm_compute. reflexivity.
Defined.

Lemma messages_are_logged_witness :
  Messages failed_check =
    messages_logged Sprintf_verbatim overwrite_program 2%positive /\
  length (Messages failed_check) =
    length (filter (fun o => message_of Sprintf_verbatim o 2%positive <> [])
              overwrite_program).
Proof.
  apply (messages_are_logged Sprintf_verbatim overwrite_program
           overwrite_final 2%positive failed_check);
    vm_compute; reflexivity.
Defined.

Lemma Success_is_noop_witness :
  Result_Success 2%positive overwrite_final = Some overwrite_final.
Proof.
  apply (Success_is_noop Sprintf_verbatim overwrite_program overwrite_final
           2%positive failed_check); vm_compute; reflexivity.
Defined.

Lemma reports_override_witness :
  exists h1,
    Result_Failure Sprintf_verbatim 2%positive "no TLS" [] overwrite_final
      = Some h1 /\
    status_at h1 2%positive = Error.
Proof.
  destruct (reports_override Sprintf_verbatim overwrite_program
              overwrite_final 2%positive failed_check)
    as (_ & Hfailure & _); [vm_compute; reflexivity .. |].
  destruct (Hfailure "no TLS"%string []) as (h1 & Hcall & Hstatus).
  exists h1. split; [exact Hcall | exact Hstatus].
Defined.

Lemma addCheck_compose_witness :
  addCheck 1%positive 2%positive two_checks ≫= addCheck 1%positive 3%positive
  = addCheck 1%positive 3%positive two_checks ≫= addCheck 1%positive 2%positive.
Proof.
  apply (addCheck_compose two_checks 1%positive 2%positive 3%positive
           (mkResult "starttls" Success [] (Some ∅))
           (mkResult "certificate" Warning
              ["Warning: certificate expires soon"%string] (Some ∅)));
    [vm_compute; reflexivity | vm_compute; reflexivity | discriminate].
Defined.

Lemma bottom_up_parents_dominate_witness : parents_dominate overwrite_final.
Proof.
  apply (bottom_up_parents_dominate Sprintf_verbatim overwrite_program);
    vm_compute; reflexivity.
Defined.

(* ===================================================================== *)
(** * More properties of the aggregated statistics                        *)
(* ===================================================================== *)

Lemma incr_times_wrap n x :
  incr_times (S n) x = GoInt.wrap (x + Z.of_nat (S n)).
Proof.
  induction n as [|n IH]; [reflexivity |].
  change (incr_times (S (S n)) x) with (GoInt.incr (incr_times (S n) x)).
  rewrite IH. unfold GoInt.incr, GoInt.add. rewrite wrap_wrap_add.
  f_equal. lia.
Qed.

Lemma incr_times_zero n : incr_times n 0 = GoInt.wrap (Z.of_nat n).
Proof. destruct n; [reflexivity |]. by rewrite incr_times_wrap. Qed.

Lemma handle_all_snoc a rs r :
  handle_all a (rs ++ [r]) = HandleDomain (handle_all a rs) r.
Proof. unfold handle_all. apply foldl_snoc. Qed.

Lemma has_hosts_cases r :
  (has_hosts r = false /\ HostnameResults r = []) \/
  (has_hosts r = true /\ HostnameResults r <> []).
Proof.
  unfold has_hosts, GoInt.len. destruct (HostnameResults r) as [|x l].
  - by left.
  - right. split; [| done]. simpl length.
    destruct (Z.eqb_spec (Z.of_nat (S (length l))) 0); [lia | done].
Qed.

(** The fields of the aggregate after a run, from any starting point. *)
Lemma handle_all_fields a rs :
  let a' := handle_all a rs in
  Time a' = Time a /\ Source a' = Source a /\
  Attempted a' = incr_times (length rs) (Attempted a) /\
  WithMXs a' = incr_times (length (with_hosts rs)) (WithMXs a) /\
  MTASTSEnforceList a' =
    MTASTSEnforceList a ++ domains_in_mode "enforce" rs /\
  MTASTSEnforce a' =
    incr_times (length (domains_in_mode "enforce" rs)) (MTASTSEnforce a) /\
  MTASTSTestingList a' =
    MTASTSTestingList a ++ domains_in_mode "testing" rs /\
  MTASTSTesting a' =
    incr_times (length (domains_in_mode "testing" rs)) (MTASTSTesting a).
Proof.
  induction rs as [|r rs IH] using rev_ind.
  - simpl. unfold domains_in_mode. simpl. rewrite !app_nil_r. done.
  - cbv zeta in *. rewrite handle_all_snoc.
    destruct IH as (HT & HS & HA & HW & HEL & HE & HTL & HTe).
    unfold with_hosts, domains_in_mode in *.
    rewrite !filter_app, !fmap_app, !length_app, !length_fmap in *.
    rewrite !filter_cons, !filter_nil. unfold in_mode.
    destruct (has_hosts_cases r) as [[Hh Hnil]|[Hh Hcons]]; rewrite Hh.
    + rewrite (HandleDomain_no_hosts _ r Hnil). simpl.
      rewrite !Nat.add_0_r, !app_nil_r, Nat.add_1_r.
      rewrite HT, HS, HA, HW, HEL, HE, HTL, HTe. done.
    + rewrite (HandleDomain_hosts _ r Hcons). cbv zeta. simpl andb.
      rewrite decide_True by done.
      destruct (MTASTSResult_ r) as [policy|].
      * destruct (String.eqb_spec (Mode policy) "enforce") as [He|He].
        { rewrite decide_True by done.
          assert (String.eqb (Mode policy) "testing" = false) as ->
            by (rewrite He; reflexivity).
          rewrite decide_False by done. simpl.
          rewrite !Nat.add_0_r, !app_nil_r, !Nat.add_1_r, app_assoc.
          rewrite HT, HS, HA, HW, HEL, HE, HTL, HTe. done. }
        rewrite decide_False by done.
        destruct (String.eqb_spec (Mode policy) "testing") as [Ht|Ht].
        { rewrite decide_True by done. simpl.
          rewrite !Nat.add_0_r, !app_nil_r, !Nat.add_1_r, app_assoc.
          rewrite HT, HS, HA, HW, HEL, HE, HTL, HTe. done. }
        rewrite decide_False by done. simpl.
        rewrite !Nat.add_0_r, !app_nil_r, !Nat.add_1_r.
        rewrite HT, HS, HA, HW, HEL, HE, HTL, HTe. done.
      * rewrite !decide_False by done. simpl.
        rewrite !Nat.add_0_r, !app_nil_r, !Nat.add_1_r.
        rewrite HT, HS, HA, HW, HEL, HE, HTL, HTe. done.
Qed.

(** X9: what a fresh aggregate holds after any sequence of results. The
    enforce list is the domains of the results that have hosts and a
    policy in mode "enforce", in arrival order, and likewise the testing
    list; [Attempted] counts all results and [WithMXs] those with hosts,
    each counter being the count reduced to Go's [int], which is the count
    itself for fewer than 2^63 results. [Time] and [Source] are never
    touched, and as long as no result had hosts [PercentMTASTS] is 0. *)
Theorem fresh_scan_counts (t : Z) (source : string)
    (rs : list DomainResult) :
  let a := handle_all (fresh_scan t source) rs in
  Time a = t /\ Source a = source /\
  Attempted a = GoInt.wrap (GoInt.len rs) /\
  WithMXs a = GoInt.wrap (GoInt.len (with_hosts rs)) /\
  MTASTSEnforceList a = domains_in_mode "enforce" rs /\
  MTASTSEnforce a = GoInt.wrap (GoInt.len (MTASTSEnforceList a)) /\
  MTASTSTestingList a = domains_in_mode "testing" rs /\
  MTASTSTesting a = GoInt.wrap (GoInt.len (MTASTSTestingList a)) /\
  (GoInt.len rs <= GoInt.max_int ->
   Attempted a = GoInt.len rs /\
   WithMXs a = GoInt.len (with_hosts rs) /\
   MTASTSEnforce a = GoInt.len (MTASTSEnforceList a) /\
   MTASTSTesting a = GoInt.len (MTASTSTestingList a)) /\
  (with_hosts rs = [] -> PercentMTASTS a = 0%float).
Proof.
  intros a.
  destruct (handle_all_fields (fresh_scan t source) rs)
    as (HT & HS & HA & HW & HEL & HE & HTL & HTe).
  fold a in HT, HS, HA, HW, HEL, HE, HTL, HTe. simpl in *.
  rewrite incr_times_zero in HA, HW, HE, HTe.
  rewrite HEL, HTL. unfold GoInt.len.
  split; [done |]. split; [done |]. split; [done |]. split; [done |].
  split; [done |]. split; [done |]. split; [done |]. split; [done |].
  split.
  - intros Hlen.
    assert (length (with_hosts rs) <= length rs)%nat
      by apply length_filter.
    assert (length (domains_in_mode "enforce" rs) <= length rs)%nat
      by (unfold domains_in_mode; rewrite length_fmap; apply length_filter).
    assert (length (domains_in_mode "testing" rs) <= length rs)%nat
      by (unfold domains_in_mode; rewrite length_fmap; apply length_filter).
    unfold GoInt.len in Hlen.
    rewrite HA, HW, HE, HTe.
    rewrite !wrap_in_range by (go_int_unfold; lia). done.
  - intros Hnone. unfold PercentMTASTS. rewrite HW, Hnone. reflexivity.
Qed.

(** X10: the order in which results arrive does not matter to the
    aggregate. After the same results in any other order, from any
    starting aggregate, all four counters, [Time], [Source] and
    [PercentMTASTS] are the same, and the two lists hold the same domains,
    each as often, in a different order. *)
Theorem handle_all_permutation (a : AggregatedScan)
    (rs rs' : list DomainResult) :
  rs ≡ₚ rs' ->
  let x := handle_all a rs in
  let y := handle_all a rs' in
  Time x = Time y /\ Source x = Source y /\
  Attempted x = Attempted y /\ WithMXs x = WithMXs y /\
  MTASTSEnforce x = MTASTSEnforce y /\ MTASTSTesting x = MTASTSTesting y /\
  MTASTSEnforceList x ≡ₚ MTASTSEnforceList y /\
  MTASTSTestingList x ≡ₚ MTASTSTestingList y /\
  TotalMTASTS x = TotalMTASTS y /\
  PercentMTASTS x = PercentMTASTS y.
Proof.
  intros Hperm x y.
  destruct (handle_all_fields a rs)
    as (HT & HS & HA & HW & HEL & HE & HTL & HTe).
  destruct (handle_all_fields a rs')
    as (HT' & HS' & HA' & HW' & HEL' & HE' & HTL' & HTe').
  fold x in HT, HS, HA, HW, HEL, HE, HTL, HTe.
  fold y in HT', HS', HA', HW', HEL', HE', HTL', HTe'.
  assert (forall mode, domains_in_mode mode rs ≡ₚ domains_in_mode mode rs')
    as Hmode.
  { intros mode. unfold domains_in_mode. by rewrite Hperm. }
  assert (Attempted x = Attempted y) as HAeq.
  { by rewrite HA, HA', Hperm. }
  assert (WithMXs x = WithMXs y) as HWeq.
  { rewrite HW, HW'. unfold with_hosts. by rewrite Hperm. }
  assert (MTASTSEnforce x = MTASTSEnforce y) as HEeq.
  { by rewrite HE, HE', (Hmode "enforce"%string). }
  assert (MTASTSTesting x = MTASTSTesting y) as HTeq.
  { by rewrite HTe, HTe', (Hmode "testing"%string). }
  split; [congruence |]. split; [congruence |].
  split; [done |]. split; [done |]. split; [done |]. split; [done |].
  split; [by rewrite HEL, HEL', (Hmode "enforce"%string) |].
  split; [by rewrite HTL, HTL', (Hmode "testing"%string) |].
  unfold PercentMTASTS, TotalMTASTS. rewrite HWeq, HEeq, HTeq. done.
Qed.

Lemma handle_all_permutation_witness :
  let x := handle_all zero_scan [no_mx_result; enforce_result] in
  let y := handle_all zero_scan [enforce_result; no_mx_result] in
  Attempted x = Attempted y /\ WithMXs x = WithMXs y /\
  MTASTSEnforceList x ≡ₚ MTASTSEnforceList y.
Proof.
  destruct (handle_all_permutation zero_scan
              [no_mx_result; enforce_result] [enforce_result; no_mx_result])
    as (_ & _ & HA & HW & _ & _ & HEL & _).
  { apply perm_swap. }
  split; [exact HA |]. split; [exact HW | exact HEL].
Defined.

(** ** The progress report *)

Ltac div_1000 :=
  repeat match goal with
  | |- context [(?a / 1000)%nat] =>
      pose proof (Nat.div_mod_eq a 1000);
      pose proof (Nat.mod_upper_bound a 1000 ltac:(lia));
      generalize dependent (a / 1000)%nat; intros
  | H : context [(?a / 1000)%nat] |- _ =>
      pose proof (Nat.div_mod_eq a 1000);
      pose proof (Nat.mod_upper_bound a 1000 ltac:(lia));
      generalize dependent (a / 1000)%nat; intros
  end;
  repeat match goal with
  | H : context [(?a mod 1000)%nat] |- _ =>
      generalize dependent (a mod 1000)%nat; intros
  end.

Lemma div_1000_hit n :
  ((n + 1) mod 1000 = 0 ->
   (n + 1) / 1000 = n / 1000 + 1 /\ 1000 * (n / 1000 + 1) - 1 = n)%nat.
Proof. intros. div_1000. lia. Qed.

Lemma div_1000_miss n :
  ((n + 1) mod 1000 <> 0 -> (n + 1) / 1000 = n / 1000)%nat.
Proof. intros. div_1000. lia. Qed.

Lemma div_1000_before n k :
  (k <= n / 1000 -> 1000 * k <= n)%nat.
Proof. intros. div_1000. lia. Qed.

Lemma rem_1000_nat m :
  (GoInt.rem (Z.of_nat m) 1000 =? 0) = (m mod 1000 =? 0)%nat.
Proof.
  unfold GoInt.rem. rewrite Z.rem_mod_nonneg by lia.
  change 1000 with (Z.of_nat 1000). rewrite <- Nat2Z.inj_mod.
  destruct (Z.eqb_spec (Z.of_nat (m mod 1000)) 0),
    (Nat.eqb_spec (m mod 1000) 0); lia.
Qed.

Lemma HandleDomain_log_snd a r :
  snd (HandleDomain_log a r) = progress (incr_Attempted a).
Proof.
  unfold HandleDomain_log.
  destruct (GoInt.len (HostnameResults r) =? 0); [done |].
  destruct (MTASTSResult_ r) as [policy|]; [| done].
  destruct (String.eqb (Mode policy) "enforce"); [done |].
  destruct (String.eqb (Mode policy) "testing"); done.
Qed.

Lemma handle_all_log_snoc rs : forall a r,
  handle_all_log a (rs ++ [r]) =
    handle_all_log a rs ++ progress (incr_Attempted (handle_all a rs)).
Proof.
  induction rs as [|r' rs IH]; intros a r.
  - simpl. by rewrite app_nil_r, HandleDomain_log_snd.
  - simpl. rewrite IH. by rewrite app_assoc.
Qed.

(** X11: from a fresh aggregate and for fewer than 2^63 results, a
    progress report is written after every 1000th result and at no other
    time: the log holds one snapshot per full thousand, with [Attempted]
    at 1000, 2000 and so on. Each snapshot is taken right after
    [Attempted] was incremented, so the 1000th result itself is not yet
    counted in [WithMXs], the counters or the lists it shows. *)
Theorem progress_every_1000 (t : Z) (source : string)
    (rs : list DomainResult) :
  GoInt.len rs <= GoInt.max_int ->
  let thousands := seq 1 (length rs / 1000) in
  handle_all_log (fresh_scan t source) rs =
    (fun k => incr_Attempted
                (handle_all (fresh_scan t source) (take (1000 * k - 1) rs)))
      <$> thousands /\
  Attempted <$> handle_all_log (fresh_scan t source) rs =
    (fun k => 1000 * Z.of_nat k) <$> thousands.
Proof.
  intros Hlen. cbv zeta.
  assert (forall l : list DomainResult,
            GoInt.len l < GoInt.max_int ->
            Attempted (incr_Attempted (handle_all (fresh_scan t source) l))
            = Z.of_nat (length l + 1)) as Hcount.
  { intros l Hl.
    destruct (handle_all_fields (fresh_scan t source) l) as (_ & _ & HA & _).
    cbn [Attempted incr_Attempted]. rewrite HA. simpl Attempted.
    rewrite incr_times_zero. unfold GoInt.len in Hl.
    rewrite wrap_in_range by (go_int_unfold; lia).
    rewrite incr_below_max by (go_int_unfold; lia). lia. }
  assert (handle_all_log (fresh_scan t source) rs =
            (fun k => incr_Attempted
                        (handle_all (fresh_scan t source)
                           (take (1000 * k - 1) rs)))
              <$> seq 1 (length rs / 1000)) as Hlog.
  { induction rs as [|r rs IH] using rev_ind; [done |].
    unfold GoInt.len in Hlen. rewrite length_app in Hlen. simpl in Hlen.
    rewrite handle_all_log_snoc, IH by (unfold GoInt.len; lia).
    rewrite length_app. cbn [length].
    assert ((fun k => incr_Attempted
                        (handle_all (fresh_scan t source)
                           (take (1000 * k - 1) (rs ++ [r]))))
              <$> seq 1 (length rs / 1000)
            = (fun k => incr_Attempted
                          (handle_all (fresh_scan t source)
                             (take (1000 * k - 1) rs)))
                <$> seq 1 (length rs / 1000)) as Hold.
    { apply Forall_fmap_ext, Forall_forall. intros k Hk.
      apply elem_of_seq in Hk.
      pose proof (div_1000_before (length rs) k).
      rewrite take_app_le by lia. done. }
    unfold progress. rewrite Hcount by (unfold GoInt.len; lia).
    rewrite rem_1000_nat.
    destruct (Nat.eqb_spec ((length rs + 1) mod 1000) 0) as [Hhit|Hmiss].
    - destruct (div_1000_hit (length rs) Hhit) as [Hdiv Htake].
      rewrite Hdiv, seq_app, fmap_app, Hold. f_equal.
      cbn [seq]. rewrite fmap_cons, fmap_nil.
      replace (1 + length rs / 1000)%nat with (length rs / 1000 + 1)%nat
        by lia.
      rewrite Htake, take_app_length. done.
    - rewrite (div_1000_miss (length rs) Hmiss), Hold.
      by rewrite app_nil_r. }
  split; [exact Hlog |].
  rewrite Hlog, <- list_fmap_compose.
  apply Forall_fmap_ext, Forall_forall. intros k Hk.
  apply elem_of_seq in Hk. unfold compose. cbv beta.
  pose proof (div_1000_before (length rs) k).
  assert (length (take (1000 * k - 1) rs) = (1000 * k - 1)%nat) as Htk.
  { rewrite length_take. lia. }
  rewrite Hcount by (unfold GoInt.len in *; rewrite Htk; lia).
  rewrite Htk. lia.
Qed.

Lemma progress_every_1000_witness :
  Attempted <$> handle_all_log (fresh_scan 0 TopDomainsSource)
                  (replicate 1000 no_mx_result) = [1000].
Proof.
  destruct (progress_every_1000 0 TopDomainsSource
              (replicate 1000 no_mx_result)) as [_ Hlog].
  { vm_compute. discriminate. }
  rewrite Hlog. vm_compute. reflexivity.
Defined.

(* ===================================================================== *)
(** * More properties of the producer and the pipeline                    *)
(* ===================================================================== *)

Lemma index_Some data i :
  0 <= i < GoInt.len data -> exists d, index data i = Some d.
Proof.
  intros Hi. unfold index.
  destruct (Z.leb_spec 0 i); [| lia].
  destruct (Z.ltb_spec i (GoInt.len data)); [| lia]. simpl.
  apply lookup_lt_is_Some. unfold GoInt.len in Hi. lia.
Qed.

Lemma index_empty data i :
  GoInt.len data = 0 -> index data i = None.
Proof.
  intros Hz. unfold index.
  destruct (Z.leb_spec 0 i), (Z.ltb_spec i (GoInt.len data)); simpl;
    try done; lia.
Qed.

Lemma enqueue_cons_ok domainColumn rr rest :
  row_ok domainColumn rr = true ->
  enqueue domainColumn (rr :: rest) =
    (option_list (field domainColumn rr) ++ fst (enqueue domainColumn rest),
     snd (enqueue domainColumn rest)).
Proof.
  destruct rr as [data|]; [| done]. simpl.
  destruct (Z.eqb_spec (GoInt.len data) 0) as [Hz|Hnz]; simpl.
  - intros _. destruct (Z.gtb_spec (GoInt.len data) 0); [lia |].
    rewrite index_empty. 2: lia.
    simpl. by destruct (enqueue domainColumn rest).
  - intros Hin. apply andb_true_iff in Hin as [Hlo Hhi].
    apply Z.leb_le in Hlo. apply Z.ltb_lt in Hhi.
    destruct (Z.gtb_spec (GoInt.len data) 0); [| lia].
    destruct (index_Some data domainColumn) as [d Hd]; [lia |].
    rewrite Hd. simpl. by destruct (enqueue domainColumn rest).
Qed.

Lemma enqueue_cons_bad domainColumn rr rest :
  row_ok domainColumn rr = false ->
  enqueue domainColumn (rr :: rest) = ([], Some (crash_of rr)).
Proof.
  destruct rr as [data|]; [| done]. simpl.
  intros Hbad. apply orb_false_iff in Hbad as [Hnz Hout].
  apply Z.eqb_neq in Hnz.
  destruct (Z.gtb_spec (GoInt.len data) 0);
    [| unfold GoInt.len in *; lia].
  unfold index. by rewrite Hout.
Qed.

Lemma enqueue_good domainColumn rows :
  forallb (row_ok domainColumn) rows = true ->
  enqueue domainColumn rows = (omap (field domainColumn) rows, None).
Proof.
  induction rows as [|rr rows IH]; [done |].
  cbn [forallb]. intros Hall. apply andb_true_iff in Hall as [Hrr Hall].
  rewrite (enqueue_cons_ok _ _ _ Hrr), (IH Hall). cbn [fst snd].
  change (omap (field domainColumn) (rr :: rows))
    with (match field domainColumn rr with
          | Some d => d :: omap (field domainColumn) rows
          | None => omap (field domainColumn) rows
          end).
  by destruct (field domainColumn rr).
Qed.

Lemma enqueue_first_bad domainColumn good : forall bad rest,
  forallb (row_ok domainColumn) good = true ->
  row_ok domainColumn bad = false ->
  enqueue domainColumn (good ++ bad :: rest) =
    (omap (field domainColumn) good, Some (crash_of bad)).
Proof.
  induction good as [|rr good IH]; intros bad rest Hall Hbad.
  - by apply enqueue_cons_bad.
  - cbn [forallb] in Hall. apply andb_true_iff in Hall as [Hrr Hall].
    rewrite <- app_comm_cons, (enqueue_cons_ok _ _ _ Hrr).
    rewrite (IH bad rest Hall Hbad). cbn [fst snd].
    change (omap (field domainColumn) (rr :: good))
      with (match field domainColumn rr with
            | Some d => d :: omap (field domainColumn) good
            | None => omap (field domainColumn) good
            end).
    by destruct (field domainColumn rr).
Qed.

(** X12: what the producer makes of an input, read off the records. It
    closes [work] normally exactly when every record is empty or has the
    identifier column, and then it has sent the column of every non-empty
    record, in order. Otherwise it dies at the first record that is a read
    error (fatal) or is non-empty without that column (index panic),
    having sent the identifiers of the records before it. *)
Theorem enqueue_input (domainColumn : Z) (rows : list read_result) :
  (snd (enqueue domainColumn rows) = None <->
   forallb (row_ok domainColumn) rows = true) /\
  (forallb (row_ok domainColumn) rows = true ->
   enqueue domainColumn rows = (omap (field domainColumn) rows, None)) /\
  (forall good bad rest,
      rows = good ++ bad :: rest ->
      forallb (row_ok domainColumn) good = true ->
      row_ok domainColumn bad = false ->
      enqueue domainColumn rows =
        (omap (field domainColumn) good, Some (crash_of bad))) /\
  (forallb (row_ok domainColumn) rows = false ->
   exists good bad rest,
     rows = good ++ bad :: rest /\
     forallb (row_ok domainColumn) good = true /\
     row_ok domainColumn bad = false).
Proof.
  assert (forallb (row_ok domainColumn) rows = false ->
          exists good bad rest,
            rows = good ++ bad :: rest /\
            forallb (row_ok domainColumn) good = true /\
            row_ok domainColumn bad = false) as Hsplit.
  { induction rows as [|rr rows IH]; [done |]. cbn [forallb].
    destruct (row_ok domainColumn rr) eqn:Hrr.
    - simpl. intros Hrows.
      destruct (IH Hrows) as (good & bad & rest & -> & Hgood & Hbad).
      exists (rr :: good), bad, rest. cbn [forallb]. by rewrite Hrr.
    - intros _. by exists [], rr, rows. }
  split; [| split; [apply enqueue_good | split; [| exact Hsplit]]].
  - split.
    + intros Hnone.
      destruct (forallb (row_ok domainColumn) rows) eqn:Hall; [done |].
      destruct (Hsplit eq_refl) as (good & bad & rest & -> & Hgood & Hbad).
      by rewrite (enqueue_first_bad _ _ _ _ Hgood Hbad) in Hnone.
    + intros Hall. by rewrite (enqueue_good _ _ Hall).
  - intros good bad rest -> Hgood Hbad. by apply enqueue_first_bad.
Qed.

Section PipelineRunProperties.

Context {handler_state : Type}.
Variable handle : handler_state -> DomainResult -> handler_state.
Variable CheckDomain : string -> DomainResult.
Variable domainColumn : Z.

Local Abbreviation act := (fire handle CheckDomain domainColumn).
Local Abbreviation next := (step handle CheckDomain domainColumn).

Ltac fields :=
  cbn [reader producer work_closed workers supervisor results_closed closes
       consumer handler delivered set_producer set_worker set_supervisor
       close_results deliver set_consumer] in *.

Lemma length_holding (ws : list worker_pc) :
  (length (ws ≫= holding CheckDomain) <= length ws)%nat.
Proof.
  induction ws as [|w ws IH]; [done |].
  rewrite bind_cons, length_app. cbn [length].
  destruct w; simpl; lia.
Qed.

(** X13: during a run of [CheckCSV] on an input that reads without error
    or panic, the handler has only been given results of identifiers of
    the input, none more often than the identifier occurs; no more
    results than workers are held by the pool; and the producer has taken
    from the input at most one identifier more than those delivered or
    held by a worker, so it never runs ahead of the consumer by more than
    the pool size plus one. *)
Theorem run_is_bounded (poolSize : nat) (rows : list read_result)
    (h0 : handler_state) (s : @pipeline handler_state) :
  snd (enqueue domainColumn rows) = None ->
  rtc (next poolSize) (Running (start poolSize rows h0)) (Running s) ->
  let ids := fst (enqueue domainColumn rows) in
  let unread := fst (enqueue domainColumn (reader s)) in
  delivered s ⊆+ CheckDomain <$> ids /\
  handler s = foldl handle h0 (delivered s) /\
  (length (workers s ≫= holding CheckDomain) <= poolSize)%nat /\
  (length ids - length unread <= length (delivered s) + poolSize + 1)%nat.
Proof.
  intros Hrows Hsteps ids unread.
  pose proof (reachable_inv handle CheckDomain domainColumn poolSize ids h0
                (Running (start poolSize rows h0)) (Running s)
                (start_inv handle CheckDomain domainColumn poolSize
                   rows h0 Hrows) Hsteps) as Hinv.
  destruct Hinv as (Hlen & _ & Hperm & Hfold & _).
  pose proof (length_holding (workers s)) as Hhold.
  split; [rewrite Hperm; by apply submseteq_inserts_r |].
  split; [done |]. split; [lia |].
  apply Permutation_length in Hperm.
  rewrite !length_app, !length_fmap, length_app in Hperm.
  fold ids unread in Hperm.
  assert (length (sending (producer s)) <= 1)%nat
    by (destruct (producer s); simpl; lia).
  lia.
Qed.

(** ** Runs on an input that makes the producer die *)

Lemma start_failing_inv poolSize e rows h0 :
  snd (enqueue domainColumn rows) = Some e ->
  failing_inv handle CheckDomain domainColumn poolSize e
    (fst (enqueue domainColumn rows)) h0 (start poolSize rows h0).
Proof.
  intros Hrows. unfold failing_inv, start. fields.
  split; [apply length_replicate |]. split; [done |].
  split.
  { assert (replicate poolSize WRecv ≫= holding CheckDomain = []) as ->.
    { induction poolSize as [|n IH]; [done |]. exact IH. }
    done. }
  split; [done |]. split; [done |]. split; [done |].
  split; [apply Forall_replicate; exact I |]. done.
Qed.

Lemma fire_failing_inv poolSize e ids h0 a (s : @pipeline handler_state) c' :
  (1 <= poolSize)%nat ->
  failing_inv handle CheckDomain domainColumn poolSize e ids h0 s ->
  act poolSize a s = Some c' ->
  c' = Crashed e \/
  exists s', c' = Running s' /\
             failing_inv handle CheckDomain domainColumn poolSize e ids h0 s'.
Proof.
  intros Hpool (Hlen & Hbad & Hperm & Hfold & Hprod & Hwork & Hall & Hsup
                & Hres & Hcons) Hfire.
  destruct a as [|i|i|i|i|i| |]; cbn [fire] in Hfire.
  - destruct (producer s) eqn:Hp; try discriminate.
    destruct (reader s) as [|[data|] rest] eqn:Hrd.
    + discriminate Hbad.
    + cbn [enqueue] in Hbad, Hperm. destruct (GoInt.len data >? 0).
      * destruct (index data domainColumn) as [d|].
        -- destruct (enqueue domainColumn rest) as [ds e'] eqn:Hrest.
           injection Hfire as <-. right. eexists. split; [done |].
           unfold failing_inv. fields. rewrite Hrest.
           cbn [sending fst snd app] in *. rewrite Hwork. done.
        -- injection Hfire as <-. left. simpl in Hbad. congruence.
      * injection Hfire as <-. right. eexists. split; [done |].
        unfold failing_inv. fields. cbn [sending fst snd app] in *.
        rewrite Hwork. done.
    + injection Hfire as <-. left. simpl in Hbad. congruence.
  - destruct (producer s) as [|d|] eqn:Hp; try discriminate.
    destruct (workers s !! i) as [[| | | |]|] eqn:Hi; try discriminate.
    injection Hfire as <-. right. eexists. split; [done |].
    pose proof (bind_insert_perm (holding CheckDomain) (workers s) i WRecv
                  (WCheck d) Hi) as Hb.
    cbn [holding] in Hb. rewrite app_nil_r in Hb.
    unfold failing_inv. fields.
    split; [by rewrite length_insert |]. split; [done |].
    split.
    { rewrite Hperm, Hb. cbn [sending app]. rewrite fmap_cons.
      solve_Permutation. }
    split; [done |]. split; [done |]. split; [done |].
    split; [apply Forall_insert; [done | exact I] |]. done.
  - destruct (workers s !! i) as [[|d| | |]|] eqn:Hi; try discriminate.
    injection Hfire as <-. right. eexists. split; [done |].
    pose proof (bind_insert_perm (holding CheckDomain) (workers s) i
                  (WCheck d) (WSend (CheckDomain d)) Hi) as Hb.
    cbn [holding] in Hb. apply Permutation_app_inv_r in Hb.
    unfold failing_inv. fields.
    split; [by rewrite length_insert |]. split; [done |].
    split; [by rewrite Hperm, Hb |].
    split; [done |]. split; [done |]. split; [done |].
    split; [apply Forall_insert; [done | exact I] |]. done.
  - destruct (workers s !! i) as [[| |r| |]|] eqn:Hi; try discriminate.
    rewrite Hres, Hcons in Hfire. injection Hfire as <-.
    right. eexists. split; [done |].
    pose proof (bind_insert_perm (holding CheckDomain) (workers s) i
                  (WSend r) WRecv Hi) as Hb.
    cbn [holding] in Hb. rewrite app_nil_r in Hb.
    unfold failing_inv. fields.
    split; [by rewrite length_insert |]. split; [done |].
    split; [rewrite Hperm, <- Hb; solve_Permutation |].
    split; [by rewrite foldl_snoc, Hfold |].
    split; [done |]. split; [done |].
    split; [apply Forall_insert; [done | exact I] |]. done.
  - destruct (workers s !! i) as [[| | | |]|]; try discriminate.
    rewrite Hwork in Hfire. discriminate.
  - destruct (workers s !! i) as [[| | | |]|] eqn:Hi; try discriminate.
    destruct (Forall_lookup_1 _ _ _ _ Hall Hi).
  - rewrite Hsup in Hfire.
    destruct (decide (0 < poolSize)%nat); [discriminate | lia].
  - rewrite Hcons, Hres in Hfire. discriminate.
Qed.

Lemma failing_can_move poolSize e ids h0 (s : @pipeline handler_state) :
  (1 <= poolSize)%nat ->
  failing_inv handle CheckDomain domainColumn poolSize e ids h0 s ->
  exists a c', act poolSize a s = Some c'.
Proof.
  intros Hpool (Hlen & Hbad & Hperm & Hfold & Hprod & Hwork & Hall & Hsup
                & Hres & Hcons).
  destruct (producer s) as [|d|] eqn:Hp; [| | done].
  - exists AProducer.
    by apply (producer_can_read handle CheckDomain domainColumn poolSize).
  - destruct (workers_cases (workers s))
      as [Hexit|[(i & w & Hi & Hw)|(i & Hi)]].
    + destruct (workers s) as [|w ws]; [simpl in Hlen; lia |].
      inversion Hexit as [|? ? Hw _]. inversion Hall as [|? ? Hw' _].
      subst. destruct Hw'.
    + pose proof (Forall_lookup_1 _ _ _ _ Hall Hi) as Hworking.
      destruct w as [|d'|r| |]; try destruct Hw; try destruct Hworking.
      * exists (ACheck i). cbn [fire]. rewrite Hi. by eexists.
      * exists (ADeliver i). cbn [fire]. rewrite Hi, Hres, Hcons.
        by eexists.
    + exists (AHandOff i). cbn [fire]. rewrite Hp, Hi. by eexists.
Qed.

Lemma reachable_failing poolSize e ids h0 c c' :
  (1 <= poolSize)%nat ->
  (c = Crashed e \/
   exists s, c = Running s /\
             failing_inv handle CheckDomain domainColumn poolSize e ids h0 s) ->
  rtc (next poolSize) c c' ->
  c' = Crashed e \/
  exists s, c' = Running s /\
            failing_inv handle CheckDomain domainColumn poolSize e ids h0 s.
Proof.
  intros Hpool Hc Hsteps.
  induction Hsteps as [c|c1 c2 c3 Hstep _ IH]; [done |].
  apply IH. destruct Hc as [->|(s & -> & Hinv)]; [done |].
  destruct Hstep as [a Hfire]. by eapply fire_failing_inv.
Qed.

Lemma run_to_crash poolSize e ids h0 n : forall s,
  (1 <= poolSize)%nat ->
  (measure (Running s) <= n)%nat ->
  failing_inv handle CheckDomain domainColumn poolSize e ids h0 s ->
  rtc (next poolSize) (Running s) (Crashed e).
Proof.
  induction n as [|n IH]; intros s Hpool Hn Hinv.
  - simpl in Hn. lia.
  - destruct (failing_can_move poolSize e ids h0 s Hpool Hinv)
      as (a & c' & Hfire).
    pose proof (fire_decreases handle CheckDomain domainColumn poolSize
                  a s c' Hfire) as Hlt.
    eapply rtc_l; [by exists a |].
    destruct (fire_failing_inv poolSize e ids h0 a s c' Hpool Hinv Hfire)
      as [->|(s' & -> & Hinv')]; [done |].
    apply IH; [done | lia | done].
Qed.

(** X14: on an input whose reading fails, with a read error or with a
    non-empty record that lacks the identifier column, [CheckCSV] never
    returns. While the run lasts [results] stays open, the consumer keeps
    waiting, and the handler gets only results of identifiers read before
    the failure; some goroutine can always move, every step lowers the
    measure, and the only way a run ends is the death of the process with
    that error or panic, which every run reaches. *)
Theorem failed_read_kills_run (poolSize : nat) (rows : list read_result)
    (h0 : handler_state) (e : crash) :
  (1 <= poolSize)%nat ->
  snd (enqueue domainColumn rows) = Some e ->
  let init := Running (start poolSize rows h0) in
  (forall c, rtc (next poolSize) init c ->
     (c = Crashed e \/
      exists s, c = Running s /\ consumer s = MRecv /\
                results_closed s = false /\
                delivered s ⊆+ CheckDomain <$> fst (enqueue domainColumn rows) /\
                handler s = foldl handle h0 (delivered s) /\
                exists c', next poolSize c c') /\
     rtc (next poolSize) c (Crashed e)) /\
  (forall c c', next poolSize c c' -> (measure c' < measure c)%nat).
Proof.
  intros Hpool Hrows init.
  split; [| apply (step_decreases handle CheckDomain domainColumn poolSize)].
  intros c Hsteps.
  destruct (reachable_failing poolSize e (fst (enqueue domainColumn rows)) h0
              init c Hpool) as [->|(s & -> & Hinv)]; [| done | |].
  { right. eexists. split; [done |]. by apply start_failing_inv. }
  { split; [by left | done]. }
  split.
  - right. exists s. split; [done |].
    pose proof Hinv as (_ & _ & Hperm & Hfold & _ & _ & _ & _ & Hres & Hcons).
    split; [done |]. split; [done |].
    split; [rewrite Hperm; by apply submseteq_inserts_r |].
    split; [done |].
    destruct (failing_can_move poolSize e _ h0 s Hpool Hinv)
      as (a & c' & Hfire).
    exists c', a. exact Hfire.
  - by apply (run_to_crash poolSize e (fst (enqueue domainColumn rows)) h0
                (measure (Running s))).
Qed.

(** ** A pool of one worker *)

Lemma fire_ordered poolSize ids a (s s' : @pipeline handler_state) :
  ordered_inv CheckDomain domainColumn ids s ->
  act poolSize a s = Some (Running s') ->
  ordered_inv CheckDomain domainColumn ids s'.
Proof.
  intros (w & Hws & Heq) Hfire. unfold ordered_inv.
  assert (forall i w', workers s !! i = Some w' -> i = 0%nat /\ w' = w)
    as Hone.
  { intros i w' Hi. rewrite Hws in Hi. destruct i as [|i]; [| done].
    simpl in Hi. split; congruence. }
  destruct a as [|i|i|i|i|i| |]; cbn [fire] in Hfire.
  - destruct (producer s) eqn:Hp; try discriminate.
    destruct (reader s) as [|[data|] rest] eqn:Hrd.
    + injection Hfire as <-. fields. exists w. split; [done |]. exact Heq.
    + cbn [enqueue] in Heq. destruct (GoInt.len data >? 0).
      * destruct (index data domainColumn) as [d|]; [| discriminate].
        destruct (enqueue domainColumn rest) as [ds e'] eqn:Hrest.
        injection Hfire as <-. fields. rewrite Hrest. exists w.
        split; [done |]. exact Heq.
      * injection Hfire as <-. fields. exists w. split; [done |]. exact Heq.
    + discriminate.
  - destruct (producer s) as [|d|] eqn:Hp; try discriminate.
    destruct (workers s !! i) as [[| | | |]|] eqn:Hi; try discriminate.
    injection Hfire as <-. destruct (Hone _ _ Hi) as [-> <-]. fields.
    rewrite Hws. exists (WCheck d). split; [done |].
    rewrite Heq. cbn [holding sending app]. by rewrite fmap_cons.
  - destruct (workers s !! i) as [[|d| | |]|] eqn:Hi; try discriminate.
    injection Hfire as <-. destruct (Hone _ _ Hi) as [-> <-]. fields.
    rewrite Hws. exists (WSend (CheckDomain d)). split; [done |]. exact Heq.
  - destruct (workers s !! i) as [[| |r| |]|] eqn:Hi; try discriminate.
    destruct (results_closed s); [discriminate |].
    destruct (consumer s); try discriminate.
    injection Hfire as <-. destruct (Hone _ _ Hi) as [-> <-]. fields.
    rewrite Hws. exists WRecv. split; [done |].
    rewrite Heq. cbn [holding app]. by rewrite <- app_assoc.
  - destruct (workers s !! i) as [[| | | |]|] eqn:Hi; try discriminate.
    destruct (work_closed s); try discriminate.
    injection Hfire as <-. destruct (Hone _ _ Hi) as [-> <-]. fields.
    rewrite Hws. exists WSignal. split; [done |]. exact Heq.
  - destruct (workers s !! i) as [[| | | |]|] eqn:Hi; try discriminate.
    destruct (supervisor s) as [k|]; try discriminate.
    destruct (decide (k < poolSize)%nat); try discriminate.
    injection Hfire as <-. destruct (Hone _ _ Hi) as [-> <-]. fields.
    rewrite Hws. exists WExit. split; [done |]. exact Heq.
  - destruct (supervisor s) as [k|]; try discriminate.
    destruct (decide (k < poolSize)%nat); try discriminate.
    destruct (results_closed s); [discriminate |].
    injection Hfire as <-. fields. exists w. split; [done |]. exact Heq.
  - destruct (consumer s); try discriminate.
    destruct (results_closed s); try discriminate.
    injection Hfire as <-. fields. exists w. split; [done |]. exact Heq.
Qed.

Lemma reachable_ordered poolSize ids c c' :
  match c with
  | Running s => ordered_inv CheckDomain domainColumn ids s
  | Crashed _ => True
  end ->
  rtc (next poolSize) c c' ->
  match c' with
  | Running s => ordered_inv CheckDomain domainColumn ids s
  | Crashed _ => True
  end.
Proof.
  intros Hc Hsteps. induction Hsteps as [c|c1 c2 c3 Hstep _ IH]; [done |].
  apply IH. destruct c1 as [s|]; [| done]. destruct Hstep as [a Hfire].
  destruct c2 as [s2|]; [| done]. by eapply fire_ordered.
Qed.

(** X15: with a pool of one worker the results reach the handler in input
    order: at every point of a run the results delivered so far are a
    prefix of the results of the input's identifiers, and when [CheckCSV]
    returns the handler has folded exactly that list, in that order. *)
Theorem single_worker_in_order (rows : list read_result)
    (h0 : handler_state) (s : @pipeline handler_state) :
  snd (enqueue domainColumn rows) = None ->
  rtc (next 1%nat) (Running (start 1 rows h0)) (Running s) ->
  let results := CheckDomain <$> fst (enqueue domainColumn rows) in
  delivered s `prefix_of` results /\
  (consumer s = MReturned ->
   delivered s = results /\ handler s = foldl handle h0 results).
Proof.
  intros Hrows Hsteps results.
  assert (ordered_inv CheckDomain domainColumn
            (fst (enqueue domainColumn rows)) s) as (w & _ & Heq).
  { apply (reachable_ordered 1 _ (Running (start 1 rows h0)) (Running s));
      [| done].
    exists WRecv. split; [done |]. unfold start. fields. done. }
  assert (delivered s `prefix_of` results) as Hprefix.
  { unfold results. rewrite Heq. by apply prefix_app_r. }
  split; [done |]. intros Hret.
  pose proof (reachable_inv handle CheckDomain domainColumn 1
                (fst (enqueue domainColumn rows)) h0
                (Running (start 1 rows h0)) (Running s)
                (start_inv handle CheckDomain domainColumn 1 rows h0 Hrows)
                Hsteps) as Hinv.
  destruct (returned_all handle CheckDomain domainColumn 1 _ h0 s
              ltac:(lia) Hinv Hret) as (Hperm & _).
  assert (delivered s = results) as Hall.
  { apply prefix_length_eq; [done |]. unfold results.
    by rewrite <- Hperm. }
  split; [done |]. destruct Hinv as (_ & _ & _ & Hfold & _).
  by rewrite Hfold, Hall.
Qed.

End PipelineRunProperties.

(** ** The pipeline feeding the aggregate *)

Lemma handle_all_same_counts a rs rs' :
  rs ≡ₚ rs' -> same_counts (handle_all a rs) (handle_all a rs').
Proof.
  intros Hperm.
  destruct (handle_all_fields a rs)
    as (HT & HS & HA & HW & HEL & HE & HTL & HTe).
  destruct (handle_all_fields a rs')
    as (HT' & HS' & HA' & HW' & HEL' & HE' & HTL' & HTe').
  cbv zeta in *. unfold same_counts.
  rewrite HT, HS, HA, HW, HEL, HE, HTL, HTe.
  rewrite HT', HS', HA', HW', HEL', HE', HTL', HTe'.
  unfold with_hosts, domains_in_mode. rewrite Hperm. done.
Qed.

(** X16: [CheckCSV] with an [AggregatedScan] as its handler. Whatever the
    pool size setting in the environment is (unset, unparsable, zero or
    negative settings fall back to 16), on an input that reads without
    error or panic some run returns, and whenever [CheckCSV] returns the
    aggregate is the one a sequential pass over the input in input order
    would have left, except for the order of domains within the two
    lists: same time and label, same four counters, same percentage. *)
Theorem CheckCSV_aggregates (atoi : option Z)
    (CheckDomain : string -> DomainResult) (domainColumn : Z)
    (rows : list read_result) (t : Z) (source : string) :
  snd (enqueue domainColumn rows) = None ->
  let pool := CheckCSV_pool atoi in
  let next := step HandleDomain CheckDomain domainColumn pool in
  let init := Running (start pool rows (fresh_scan t source)) in
  let sequential :=
    handle_all (fresh_scan t source)
      (CheckDomain <$> fst (enqueue domainColumn rows)) in
  (atoi = None \/ (exists n, atoi = Some n /\ n <= 0) -> pool = 16%nat) /\
  (forall n, 0 < n -> atoi = Some n -> pool = Z.to_nat n) /\
  (exists s, rtc next init (Running s) /\ consumer s = MReturned) /\
  (forall s, rtc next init (Running s) -> consumer s = MReturned ->
     same_counts (handler s) sequential /\
     Attempted (handler s) =
       GoInt.wrap (GoInt.len (fst (enqueue domainColumn rows))) /\
     PercentMTASTS (handler s) = PercentMTASTS sequential).
Proof.
  intros Hrows pool next init sequential.
  pose proof (CheckCSV_pool_positive atoi) as Hpool. fold pool in Hpool.
  pose proof (start_inv HandleDomain CheckDomain domainColumn pool rows
                (fresh_scan t source) Hrows) as Hstart.
  split.
  { unfold pool, CheckCSV_pool, poolSize_of, defaultPoolSize.
    intros [->|(n & -> & Hn)]; [done |].
    destruct (Z.leb_spec n 0); [done | lia]. }
  split.
  { unfold pool, CheckCSV_pool, poolSize_of. intros n Hn ->.
    destruct (Z.leb_spec n 0); [lia | done]. }
  split.
  { apply (run_to_return HandleDomain CheckDomain domainColumn pool
             (fst (enqueue domainColumn rows)) (fresh_scan t source)
             (measure init) init); [done | exact Hstart]. }
  intros s Hsteps Hret.
  pose proof (reachable_inv HandleDomain CheckDomain domainColumn pool
                (fst (enqueue domainColumn rows)) (fresh_scan t source)
                init (Running s) Hstart Hsteps) as Hinv.
  destruct (returned_all HandleDomain CheckDomain domainColumn pool _ _ s
              Hpool Hinv Hret) as (Hperm & _).
  destruct Hinv as (_ & _ & _ & Hfold & _).
  assert (same_counts (handler s) sequential) as Hsame.
  { rewrite Hfold. by apply handle_all_same_counts. }
  split; [exact Hsame |].
  destruct Hsame as (_ & _ & HA & HW & HE & HTe & _).
  split.
  - rewrite HA.
    destruct (handle_all_fields (fresh_scan t source)
                (CheckDomain <$> fst (enqueue domainColumn rows)))
      as (_ & _ & HAs & _).
    fold sequential in HAs. rewrite HAs. simpl Attempted.
    rewrite incr_times_zero, length_fmap. done.
  - unfold PercentMTASTS, TotalMTASTS. by rewrite HW, HE, HTe.
Qed.

Lemma run_is_bounded_witness :
  let s := exec HandleDomain check_stub 0 2
             [AProducer; AHandOff 0; ACheck 0; AProducer; AProducer]
             (Running (start 2 three_rows zero_scan)) in
  exists s',
    s = Running s' /\ delivered s' ⊆+ check_stub <$> ["a.example"; "b.example"]%string /\
    (length (workers s' ≫= holding check_stub) <= 2)%nat.
Proof.
  intros s.
  destruct s as [s'|] eqn:Hs; [| vm_compute in Hs; discriminate].
  exists s'. split; [done |].
  destruct (run_is_bounded HandleDomain check_stub 0 2 three_rows zero_scan s')
    as (Hsub & _ & Hheld & _).
  { reflexivity. }
  { rewrite <- Hs.
    apply (exec_reachable HandleDomain check_stub 0 2). }
  split; [exact Hsub | exact Hheld].
Defined.

Lemma failed_read_kills_run_witness :
  rtc (step HandleDomain check_stub 1 2)
    (Running (start 2 [RRow ["a.example"%string]] zero_scan))
    (Crashed PanicIndexOutOfRange).
Proof.
  destruct (failed_read_kills_run HandleDomain check_stub 1 2
              [RRow ["a.example"%string]] zero_scan PanicIndexOutOfRange)
    as [Hreach _]; [lia | reflexivity |].
  apply (Hreach (Running (start 2 [RRow ["a.example"%string]] zero_scan))).
  apply rtc_refl.
Defined.

Lemma single_worker_in_order_witness :
  let c := exec HandleDomain check_stub 0 1
             [AProducer; AHandOff 0; ACheck 0; ADeliver 0]
             (Running (start 1 three_rows zero_scan)) in
  exists s,
    c = Running s /\
    delivered s `prefix_of` check_stub <$> ["a.example"; "b.example"]%string.
Proof.
  intros c.
  destruct c as [s|] eqn:Hs; [| vm_compute in Hs; discriminate].
  exists s. split; [done |].
  apply (single_worker_in_order HandleDomain check_stub 0 three_rows
           zero_scan s); [reflexivity |].
  rewrite <- Hs. apply (exec_reachable HandleDomain check_stub 0 1).
Defined.

Lemma CheckCSV_aggregates_witness :
  exists s,
    rtc (step HandleDomain check_stub 0 16)
      (Running (start 16 three_rows (fresh_scan 0 TopDomainsSource)))
      (Running s) /\
    consumer s = MReturned.
Proof.
  destruct (CheckCSV_aggregates None check_stub 0 three_rows 0
              TopDomainsSource) as (_ & _ & Hrun & _); [reflexivity |].
  exact Hrun.
Defined.
